(** * MemTable: the in-memory write buffer of the storage engine

    A shallow embedding of [be/src/olap/memtable.cpp] and the properties of
    its [insert] / [flush] / [close] / [memory_usage] operations.

    The file [memtable.cpp] orchestrates collaborators whose code lives in
    other translation units (the memory pool and its tracker, the skip list,
    the schema and its columns, the rowset writer).  They are an interface
    here (class [Collaborators]); the operations of [memtable.cpp] are
    written once, against that interface, as programs of a small state
    monad.  A second part instantiates the interface with reference
    collaborators that follow the design document. *)

From stdpp Require Import base list gmap strings sorting.
From Stdlib Require Import ZArith NArith Lia.

Local Open Scope Z_scope.

(** ** Plain data shared with the collaborators *)

(** [OLAPStatus] is an integer code; [OLAP_SUCCESS] is 0. *)
Definition OLAPStatus : Type := Z.
Definition OLAP_SUCCESS : OLAPStatus := 0.

(** The test of the [RETURN_NOT_OK] macro: [s != OLAP_SUCCESS]. *)
Definition not_ok (s : OLAPStatus) : bool := negb (s =? OLAP_SUCCESS).

Inductive KeysType : Type := DUP_KEYS | UNIQUE_KEYS | AGG_KEYS.

#[global] Instance KeysType_eq_dec : EqDecision KeysType.
Proof. solve_decision. Defined.

(** A [char*] into the memory pool. *)
Definition addr : Type := N.

Record SlotDescriptor : Type := mkSlot {
  null_indicator_offset : N;
  tuple_offset : N
}.

(** ** The collaborators of [memtable.cpp]

    Every operation is a function on the state of the object it belongs
    to.  The skip list is constructed with a pointer to the memtable's
    pool (line 44), so its operations take and return the pool. *)
Class Collaborators : Type := {
  Schema : Type;
  Tuple : Type;
  SlotValue : Type;
  MemTracker : Type;
  MemPool : Type;
  ObjectPool : Type;
  Table : Type;
  RowsetWriter : Type;
  (* Schema::schema_size() *)
  schema_size : Schema → N;
  (* Tuple::is_null(offset), Tuple::get_slot(offset) *)
  tuple_is_null : Tuple → N → bool;
  tuple_get_slot : Tuple → N → SlotValue;
  (* new MemTracker(limit, label, parent); MemTracker::consumption() *)
  MemTracker_new : Z → string → MemTracker → MemTracker;
  consumption : MemTracker → N;
  (* new MemPool(tracker); MemPool::mem_tracker(); MemPool::allocate(size) *)
  MemPool_new : MemTracker → MemPool;
  mem_tracker : MemPool → MemTracker;
  allocate : N → MemPool → addr * MemPool;
  (* the default-constructed ObjectPool member *)
  ObjectPool_new : ObjectPool;
  (* _schema->column(i)->consume(&cell, value, is_null, pool, agg_pool),
     where cell is cell i of the row at the given address *)
  column_consume :
    Schema → nat → addr → SlotValue → bool → MemPool → ObjectPool →
    MemPool * ObjectPool;
  (* new Table(comparator over the schema, pool) *)
  Table_new : Schema → MemPool → Table * MemPool;
  (* Table::Insert(key, &overwritten, keys_type); the result starts with
     the flag written to overwritten *)
  Table_Insert : addr → KeysType → Table → MemPool → bool * Table * MemPool;
  (* the keys met by Table::Iterator from SeekToFirst() by Next() *)
  Table_entries : Table → list addr;
  (* agg_finalize_row(&row, pool) *)
  agg_finalize_row : Schema → addr → MemPool → MemPool;
  (* RowsetWriter::add_row(row), RowsetWriter::flush() *)
  writer_add_row : Schema → addr → MemPool → RowsetWriter → OLAPStatus * RowsetWriter;
  writer_flush : RowsetWriter → OLAPStatus * RowsetWriter
}.

(** The calls [memtable.cpp] itself makes to its collaborators, with what
    they returned.  The list of them is specification state: it records
    the order of the calls and nothing reads it. *)
Inductive Call : Type :=
| CallConsume (column : nat) (row : addr) (is_null : bool)
| CallInsert (key : addr) (keys_type : KeysType) (overwritten : bool)
| CallAllocate (size : N) (buf : addr)
| CallFinalize (row : addr)
| CallAddRow (row : addr) (st : OLAPStatus)
| CallWriterFlush (st : OLAPStatus).

#[global] Instance Call_eq_dec : EqDecision Call.
Proof. solve_decision. Defined.

Section MemTableCode.
Context `{C : Collaborators}.

(** ** The members of [MemTable]

    [_mem_pool] holds the pool together with the tracker it reports to
    ([_mem_tracker] points to the same tracker); [_rowset_writer] holds the
    state of the writer the memtable points to.  [_tablet_schema] and
    [_tuple_desc] are stored by the constructor and never read. *)
Record MemTable : Type := mkMemTable {
  _tablet_id : Z;
  _schema : Schema;
  _slot_descs : list SlotDescriptor;
  _keys_type : KeysType;
  _rowset_writer : RowsetWriter;
  _schema_size : N;
  _mem_pool : MemPool;
  _agg_object_pool : ObjectPool;
  _tuple_buf : addr;
  _skip_list : Table
}.

(** What a member function runs in: the object, the two global counters of
    [DorisMetrics], the time the scoped timer of [flush] will measure, and
    the calls made so far. *)
Record Env : Type := mkEnv {
  this : MemTable;
  memtable_flush_total : Z;
  memtable_flush_duration_us : Z;
  timer_ns : Z;
  calls : list Call
}.

Definition with_this (f : MemTable → MemTable) (e : Env) : Env :=
  mkEnv (f (this e)) (memtable_flush_total e) (memtable_flush_duration_us e)
        (timer_ns e) (calls e).

Definition with_call (c : Call) (e : Env) : Env :=
  mkEnv (this e) (memtable_flush_total e) (memtable_flush_duration_us e)
        (timer_ns e) (calls e ++ [c]).

Definition set_mem_pool (p : MemPool) (m : MemTable) : MemTable :=
  mkMemTable (_tablet_id m) (_schema m) (_slot_descs m) (_keys_type m)
    (_rowset_writer m) (_schema_size m) p (_agg_object_pool m)
    (_tuple_buf m) (_skip_list m).

Definition set_agg_object_pool (o : ObjectPool) (m : MemTable) : MemTable :=
  mkMemTable (_tablet_id m) (_schema m) (_slot_descs m) (_keys_type m)
    (_rowset_writer m) (_schema_size m) (_mem_pool m) o
    (_tuple_buf m) (_skip_list m).

Definition set_tuple_buf (b : addr) (m : MemTable) : MemTable :=
  mkMemTable (_tablet_id m) (_schema m) (_slot_descs m) (_keys_type m)
    (_rowset_writer m) (_schema_size m) (_mem_pool m) (_agg_object_pool m)
    b (_skip_list m).

Definition set_skip_list (t : Table) (m : MemTable) : MemTable :=
  mkMemTable (_tablet_id m) (_schema m) (_slot_descs m) (_keys_type m)
    (_rowset_writer m) (_schema_size m) (_mem_pool m) (_agg_object_pool m)
    (_tuple_buf m) t.

Definition set_rowset_writer (w : RowsetWriter) (m : MemTable) : MemTable :=
  mkMemTable (_tablet_id m) (_schema m) (_slot_descs m) (_keys_type m)
    w (_schema_size m) (_mem_pool m) (_agg_object_pool m)
    (_tuple_buf m) (_skip_list m).

(** ** The state monad of member functions *)
Definition M (A : Type) : Type := Env → A * Env.

#[global] Instance M_ret : MRet M := λ A a e, (a, e).
#[global] Instance M_bind : MBind M :=
  λ A B f c e, let '(a, e') := c e in f a e'.

Definition member {A} (f : MemTable → A) : M A := λ e, (f (this e), e).
Definition assign (f : MemTable → MemTable) : M unit := λ e, (tt, with_this f e).
Definition called (c : Call) : M unit := λ e, (tt, with_call c e).

(** *** Calls to the collaborators, on the members they act on *)

(* _mem_pool->allocate(size) *)
Definition mem_pool_allocate (size : N) : M addr :=
  pool ← member _mem_pool;
  let '(buf, pool') := allocate size pool in
  assign (set_mem_pool pool');;
  called (CallAllocate size buf);;
  mret buf.

(* _schema->column(i)->consume(&cell, value, is_null, _mem_pool.get(), &_agg_object_pool) *)
Definition schema_column_consume (i : nat) (row : addr) (value : SlotValue)
    (is_null : bool) : M unit :=
  schema ← member _schema;
  pool ← member _mem_pool;
  objs ← member _agg_object_pool;
  let '(pool', objs') := column_consume schema i row value is_null pool objs in
  assign (set_mem_pool pool');;
  assign (set_agg_object_pool objs');;
  called (CallConsume i row is_null).

(* _skip_list->Insert(key, &overwritten, keys_type) *)
Definition skip_list_Insert (key : addr) (keys_type : KeysType) : M bool :=
  table ← member _skip_list;
  pool ← member _mem_pool;
  let '(overwritten, table', pool') := Table_Insert key keys_type table pool in
  assign (set_skip_list table');;
  assign (set_mem_pool pool');;
  called (CallInsert key keys_type overwritten);;
  mret overwritten.

(* agg_finalize_row(&dst_row, _mem_pool.get()) *)
Definition finalize_row (row : addr) : M unit :=
  schema ← member _schema;
  pool ← member _mem_pool;
  assign (set_mem_pool (agg_finalize_row schema row pool));;
  called (CallFinalize row).

(* _rowset_writer->add_row(dst_row) *)
Definition rowset_writer_add_row (row : addr) : M OLAPStatus :=
  schema ← member _schema;
  pool ← member _mem_pool;
  writer ← member _rowset_writer;
  let '(st, writer') := writer_add_row schema row pool writer in
  assign (set_rowset_writer writer');;
  called (CallAddRow row st);;
  mret st.

(* _rowset_writer->flush() *)
Definition rowset_writer_flush : M OLAPStatus :=
  writer ← member _rowset_writer;
  let '(st, writer') := writer_flush writer in
  assign (set_rowset_writer writer');;
  called (CallWriterFlush st);;
  mret st.

(** *** [Table::Iterator]: a cursor on the entries that remain *)
Definition Iterator : Type := list addr.
Definition SeekToFirst (t : Table) : Iterator := Table_entries t.
Definition Valid (it : Iterator) : bool := if it is [] then false else true.
Definition Next (it : Iterator) : Iterator := tail it.
Definition key (it : Iterator) : addr := hd 0%N it.

(** ** The constructor (lines 28-45) *)
Definition MemTable_new (tablet_id : Z) (schema : Schema)
    (slot_descs : list SlotDescriptor) (keys_type : KeysType)
    (rowset_writer : RowsetWriter) (parent_tracker : MemTracker) : MemTable :=
  let schema_size_ := schema_size schema in
  let tracker := MemTracker_new (-1) "memtable" parent_tracker in
  let pool := MemPool_new tracker in
  let '(tuple_buf, pool) := allocate schema_size_ pool in
  let '(skip_list, pool) := Table_new schema pool in
  mkMemTable tablet_id schema slot_descs keys_type rowset_writer
    schema_size_ pool ObjectPool_new tuple_buf skip_list.

(** ** [memory_usage] (lines 60-62) *)
Definition memory_usage : M N :=
  pool ← member _mem_pool;
  mret (consumption (mem_tracker pool)).

(** ** [insert] (lines 64-81) *)

(** The loop [for (size_t i = 0; i < _slot_descs->size(); ++i)], from
    index [i] on the slots that remain. *)
Fixpoint consume_slots (tuple : Tuple) (row : addr) (i : nat)
    (slots : list SlotDescriptor) : M unit :=
  match slots with
  | [] => mret tt
  | slot :: rest =>
      let is_null := tuple_is_null tuple (null_indicator_offset slot) in
      let value := tuple_get_slot tuple (tuple_offset slot) in
      schema_column_consume i row value is_null;;
      consume_slots tuple row (S i) rest
  end.

Definition insert (tuple : Tuple) : M unit :=
  row ← member _tuple_buf;
  slot_descs ← member _slot_descs;
  consume_slots tuple row 0 slot_descs;;
  keys_type ← member _keys_type;
  overwritten ← skip_list_Insert row keys_type;
  if negb overwritten then
    size ← member _schema_size;
    buf ← mem_pool_allocate size;
    assign (set_tuple_buf buf)
  else mret tt.

(** ** [flush] (lines 83-99)

    The scoped timer around the loop and the writer's flush measures
    [timer_ns]. *)

(** The loop [for (it.SeekToFirst(); it.Valid(); it.Next())] from a cursor
    on.  [RETURN_NOT_OK] leaves the function with the status; the loop
    yields [OLAP_SUCCESS] when it runs to the end. *)
Fixpoint flush_rows (it : Iterator) : M OLAPStatus :=
  match it with
  | [] => mret OLAP_SUCCESS
  | row :: rest =>
      finalize_row row;;
      st ← rowset_writer_add_row row;
      if not_ok st then mret st else flush_rows rest
  end.

(* DorisMetrics::memtable_flush_total.increment(1);
   DorisMetrics::memtable_flush_duration_us.increment(duration_ns / 1000) *)
Definition metrics_increment : M unit := λ e,
  (tt, mkEnv (this e) (memtable_flush_total e + 1)
         (memtable_flush_duration_us e + Z.quot (timer_ns e) 1000)
         (timer_ns e) (calls e)).

Definition flush : M OLAPStatus :=
  table ← member _skip_list;
  st ← flush_rows (SeekToFirst table);
  if not_ok st then mret st else
    (st ← rowset_writer_flush;
     if not_ok st then mret st else
       (metrics_increment;;
        mret OLAP_SUCCESS)).

(** ** [close] (lines 101-103) *)
Definition close : M OLAPStatus := flush.

(** ** Vocabulary of the statements *)

(** The calls that an operation adds to those already made. *)
Definition new_calls (before after : Env) : list Call :=
  drop (length (calls before)) (calls after).

(** The [add_row] calls of a trace, with the status each returned. *)
Definition add_row_calls (cs : list Call) : list (addr * OLAPStatus) :=
  omap (λ c, if c is CallAddRow row st then Some (row, st) else None) cs.

(** The statuses of the writer's [flush] calls of a trace. *)
Definition writer_flush_calls (cs : list Call) : list OLAPStatus :=
  omap (λ c, if c is CallWriterFlush st then Some st else None) cs.


(** The sizes passed to the [allocate] calls of a trace. *)
Definition allocate_calls (cs : list Call) : list (N * addr) :=
  omap (λ c, if c is CallAllocate size buf then Some (size, buf) else None) cs.

(** What the body of the loop of [flush] adds for one record. *)
Definition row_calls (p : addr * OLAPStatus) : list Call :=
  [CallFinalize p.1; CallAddRow p.1 p.2].

Definition drain_calls (done : list (addr * OLAPStatus)) : list Call :=
  done ≫= row_calls.

Definition accepted (p : addr * OLAPStatus) : Prop := p.2 = OLAP_SUCCESS.

(** The environment after writer and finalization calls: only the pool,
    the writer and the list of calls have moved. *)
Definition drained (pool : MemPool) (writer : RowsetWriter) (cs : list Call)
    (e : Env) : Env :=
  mkEnv (set_rowset_writer writer (set_mem_pool pool (this e)))
    (memtable_flush_total e) (memtable_flush_duration_us e) (timer_ns e)
    (calls e ++ cs).

(** How a run of [flush] on the entries [rows] can go: the status it
    returns, the records it handed to the writer with the status of each
    [add_row], and the calls made after the loop. *)
Inductive FlushRun (rows : list addr) :
    OLAPStatus → list (addr * OLAPStatus) → list Call → Prop :=
| FlushAddRowFailed front row st rest :
    Forall accepted front → st ≠ OLAP_SUCCESS →
    rows = front.*1 ++ row :: rest →
    FlushRun rows st (front ++ [(row, st)]) []
| FlushSealFailed done st :
    Forall accepted done → done.*1 = rows → st ≠ OLAP_SUCCESS →
    FlushRun rows st done [CallWriterFlush st]
| FlushSealed done :
    Forall accepted done → done.*1 = rows →
    FlushRun rows OLAP_SUCCESS done [CallWriterFlush OLAP_SUCCESS].

(** A call of the decoding loop on the row at [row]. *)
Definition consume_on (row : addr) (c : Call) : Prop :=
  ∃ i is_null, c = CallConsume i row is_null.

(** The environment after the decoding loop: the two pools and the list of
    calls have moved. *)
Definition decoded (pool : MemPool) (objs : ObjectPool) (cs : list Call)
    (e : Env) : Env :=
  mkEnv (set_agg_object_pool objs (set_mem_pool pool (this e)))
    (memtable_flush_total e) (memtable_flush_duration_us e) (timer_ns e)
    (calls e ++ cs).

(** The environment [insert] leaves, from what the index and the pool
    returned. *)
Definition inserted (pool : MemPool) (objs : ObjectPool) (buf : addr)
    (table : Table) (cs : list Call) (e : Env) : Env :=
  mkEnv
    (mkMemTable (_tablet_id (this e)) (_schema (this e)) (_slot_descs (this e))
       (_keys_type (this e)) (_rowset_writer (this e)) (_schema_size (this e))
       pool objs buf table)
    (memtable_flush_total e) (memtable_flush_duration_us e) (timer_ns e)
    (calls e ++ cs).

(** *** The states of an open memtable: constructed, then any inserts *)
Inductive Open : Env → Prop :=
| Open_new tablet_id schema slot_descs keys_type writer parent total us timer cs :
    Open (mkEnv (MemTable_new tablet_id schema slot_descs keys_type writer parent)
            total us timer cs)
| Open_insert e tuple : Open e → Open (insert tuple e).2.

(** Tracked consumption does not decrease from one pool state to another. *)
Definition consumption_le (p p' : MemPool) : Prop :=
  (consumption (mem_tracker p) ≤ consumption (mem_tracker p'))%N.

(** Modelled from the spec: the accounting contract of the arena and its
    tracker ([runtime/mem_pool.h] and [runtime/mem_tracker.h], absent):
    tracked consumption is an accumulator, incremented on allocation, and
    nothing is freed record by record.  Each collaborator that is handed
    the pool leaves its tracked consumption at least where it was. *)
Class ArenaGrows : Prop := {
  allocate_grows size p :
    (consumption (mem_tracker p) ≤ consumption (mem_tracker (allocate size p).2))%N;
  consume_grows s i row v b p o :
    (consumption (mem_tracker p)
     ≤ consumption (mem_tracker (column_consume s i row v b p o).1))%N;
  Insert_grows k kt t p :
    (consumption (mem_tracker p)
     ≤ consumption (mem_tracker (Table_Insert k kt t p).2))%N
}.

End MemTableCode.

(** * Reference collaborators

    The collaborators are defined in other files of the repository
    ([runtime/mem_pool.h], [runtime/mem_tracker.h], [olap/skiplist.h],
    [olap/schema.h], [olap/row.h], the rowset writers).  The definitions of
    this part follow the design document's description of each of them. *)

(** Modelled from the spec: a cell of a record, which is absent from the
    sources at hand ([olap/row_cursor_cell.h]): a value with a null
    indicator.  [None] is the null cell. *)
Definition Cell : Type := option Z.

(** Modelled from the spec: a record ([olap/row.h], absent), one cell per
    column of the schema. *)
Definition Row : Type := list Cell.

(** Modelled from the spec: the aggregation function of a value column
    ([olap/aggregate_func.h], absent). *)
Inductive AggMethod : Type :=
  AGG_NONE | AGG_SUM | AGG_MIN | AGG_MAX | AGG_REPLACE.

(** Modelled from the spec: a column descriptor of the schema
    ([olap/schema.h] and [olap/field.h], absent): the byte width of its
    cells and its aggregation function. *)
Record RefColumn : Type := mkColumn {
  col_width : N;
  col_agg : AggMethod
}.

(** Modelled from the spec: the schema ([olap/schema.h], absent), an
    ordered sequence of column descriptors of which the first
    [num_key_columns] are the key. *)
Record RefSchema : Type := mkSchema {
  columns : list RefColumn;
  num_key_columns : nat
}.

(** Modelled from the spec: [Schema::schema_size], absent; the fixed row
    footprint: for every column, its cell and the cell's null indicator. *)
Definition ref_schema_size (s : RefSchema) : N :=
  foldr (λ c n, 1 + col_width c + n)%N 0%N (columns s).

(** Modelled from the spec: the decoded tuple of the input record source
    ([runtime/tuple.h], absent), exposing per position a null flag and a
    value. *)
Definition RefTuple : Type := list Cell.

(** Modelled from the spec: [Tuple::is_null], absent; the null flag at a
    position (a position past the end reads as null). *)
Definition ref_is_null (t : RefTuple) (offset : N) : bool :=
  if t !! N.to_nat offset is Some (Some _) then false else true.

(** Modelled from the spec: [Tuple::get_slot], absent; the value at a
    position. *)
Definition ref_get_slot (t : RefTuple) (offset : N) : Z :=
  if t !! N.to_nat offset is Some (Some v) then v else 0.

(** Modelled from the spec: the budget tracker ([runtime/mem_tracker.h],
    absent): a byte limit (negative: none), a label, the bytes consumed
    and the tracker it reports into; [NoTracker] is the null parent. *)
Inductive RefTracker : Type :=
| NoTracker
| Tracker (limit : Z) (label : string) (consumed : N) (parent : RefTracker).

(** Modelled from the spec: the constructor of [MemTracker], absent; a
    new tracker has consumed nothing. *)
Definition ref_tracker_new (limit : Z) (label : string)
    (parent : RefTracker) : RefTracker :=
  Tracker limit label 0 parent.

(** Modelled from the spec: [MemTracker::consumption], absent; the
    cumulative bytes of the tracker. *)
Definition ref_consumption (t : RefTracker) : N :=
  match t with
  | NoTracker => 0
  | Tracker _ _ consumed _ => consumed
  end.

(** Modelled from the spec: the tracker is an accumulator, incremented on
    every allocation, as are the trackers it reports into. *)
Fixpoint ref_tracker_consume (bytes : N) (t : RefTracker) : RefTracker :=
  match t with
  | NoTracker => NoTracker
  | Tracker limit label consumed parent =>
      Tracker limit label (consumed + bytes) (ref_tracker_consume bytes parent)
  end.


(** Modelled from the spec: the arena ([runtime/mem_pool.h], absent): it
    hands out buffers at addresses it never hands out again, reports every
    allocation to its tracker and frees nothing.  [pool_rows] is the
    content of the buffers that hold records. *)
Record RefPool : Type := mkPool {
  pool_tracker : RefTracker;
  next_free : N;
  pool_rows : gmap N Row
}.

(** Modelled from the spec: the constructor of [MemPool], absent; nothing
    is handed out yet, and address 0 is the null pointer. *)
Definition ref_pool_new (t : RefTracker) : RefPool := mkPool t 1 ∅.

(** Modelled from the spec: [MemPool::allocate], absent; the buffer
    starts at the allocation mark, which moves past it, and its size is
    added to the tracked consumption. *)
Definition ref_allocate (size : N) (p : RefPool) : addr * RefPool :=
  (next_free p,
   mkPool (ref_tracker_consume size (pool_tracker p))
          (next_free p + size) (pool_rows p)).

(** The record in the buffer at [a]. *)
Definition read_row (p : RefPool) (a : addr) : Row :=
  default [] (pool_rows p !! a).

(** The pool after writing the record [r] into the buffer at [a]. *)
Definition write_row (a : addr) (r : Row) (p : RefPool) : RefPool :=
  mkPool (pool_tracker p) (next_free p) (<[a := r]> (pool_rows p)).

(** Cell [i] of a record; the record grows when a cell past its end is
    set. *)
Definition get_cell (r : Row) (i : nat) : Cell := default None (r !! i).

Definition set_cell (i : nat) (c : Cell) (r : Row) : Row :=
  if decide (i < length r)%nat then <[i := c]> r
  else r ++ replicate (i - length r) None ++ [c].

(** Modelled from the spec: [Field::consume] ([olap/field.h], absent), the
    per-column decode step: the cell of the scratch record takes the null
    flag and the value of the input. *)
Definition ref_column_consume (s : RefSchema) (i : nat) (row : addr)
    (value : Z) (is_null : bool) (p : RefPool) (o : unit) : RefPool * unit :=
  (write_row row
     (set_cell i (if is_null then None else Some value) (read_row p row)) p,
   o).

(** Modelled from the spec: the order of the cells of one key column,
    part of the absent comparator: numeric order, nulls before all
    values. *)
Definition cell_compare (a b : Cell) : comparison :=
  match a, b with
  | None, None => Eq
  | None, Some _ => Lt
  | Some _, None => Gt
  | Some x, Some y => x ?= y
  end.

(** Modelled from the spec: the order of keys, part of the absent
    comparator: column by column, the first difference decides. *)
Fixpoint cells_compare (a b : list Cell) : comparison :=
  match a, b with
  | [], [] => Eq
  | [], _ :: _ => Lt
  | _ :: _, [] => Gt
  | x :: a', y :: b' =>
      match cell_compare x y with
      | Eq => cells_compare a' b'
      | c => c
      end
  end.

(** The key of a record: its cells in the key columns. *)
Definition key_of (s : RefSchema) (r : Row) : list Cell :=
  get_cell r <$> seq 0 (num_key_columns s).

(** Modelled from the spec: the key comparator ([compare_row] of
    [olap/row.h], absent): it compares the key columns only, in schema
    order. *)
Definition compare_row (s : RefSchema) (l r : Row) : comparison :=
  cells_compare (key_of s l) (key_of s r).

(** The comparator on the records two addresses hold. *)
Definition compare_at (s : RefSchema) (p : RefPool) (l r : addr) : comparison :=
  compare_row s (read_row p l) (read_row p r).

(** Ascending order under a comparator: the left record is not greater
    than the right one. *)
Definition ascending (c : addr → addr → comparison) (l r : addr) : Prop :=
  c l r ≠ Gt.

Definition row_le (s : RefSchema) (p : RefPool) (l r : addr) : Prop :=
  ascending (compare_at s p) l r.

(** Modelled from the spec: the ordered index ([olap/skiplist.h], absent),
    as the sequence of its entries in iteration order, with the schema its
    comparator holds. *)
Record RefTable : Type := mkTable {
  table_schema : RefSchema;
  table_entries : list addr
}.

(** Modelled from the spec: the constructor of the index, absent; a new
    index has no entry. *)
Definition ref_table_new (s : RefSchema) (p : RefPool) : RefTable * RefPool :=
  (mkTable s [], p).

(** Modelled from the spec: insert-or-locate.  With no entry of an equal
    key, the given record becomes an entry and the flag is false; with
    one, the entries are left as they are and the flag is true; the index
    merges nothing.  For a duplicate-key table equal keys never collide:
    the record goes behind the entries of the same key (a key with a
    sequence number).  [cmp x] compares the entry [x] to the given key. *)
Fixpoint insert_or_locate (cmp : addr → comparison) (dup : bool) (k : addr)
    (entries : list addr) : bool * list addr :=
  match entries with
  | [] => (false, [k])
  | x :: rest =>
      match cmp x with
      | Gt => (false, k :: x :: rest)
      | Eq =>
          if dup then
            let r := insert_or_locate cmp dup k rest in (r.1, x :: r.2)
          else (true, x :: rest)
      | Lt => let r := insert_or_locate cmp dup k rest in (r.1, x :: r.2)
      end
  end.

(** Modelled from the spec: [Table::Insert], absent; insert-or-locate
    under the comparator of the index on the records in the pool. *)
Definition ref_table_insert (k : addr) (keys_type : KeysType) (t : RefTable)
    (p : RefPool) : bool * RefTable * RefPool :=
  let r := insert_or_locate (λ x, compare_at (table_schema t) p x k)
             (bool_decide (keys_type = DUP_KEYS)) k (table_entries t) in
  (r.1, mkTable (table_schema t) r.2, p).

(** Modelled from the spec: the aggregation policy of an aggregate-key or
    unique-key table ([olap/row.h] and [olap/aggregate_func.h], absent),
    for a resident record and a new record of the same key.  Key columns
    are left alone; a null cell is the identity of sum, min and max. *)
Definition agg_cell (m : AggMethod) (resident new : Cell) : Cell :=
  match m with
  | AGG_NONE => resident
  | AGG_REPLACE => new
  | AGG_SUM | AGG_MIN | AGG_MAX =>
      match resident, new with
      | None, c | c, None => c
      | Some x, Some y =>
          Some (match m with
                | AGG_SUM => x + y
                | AGG_MIN => Z.min x y
                | _ => Z.max x y
                end)
      end
  end.

Definition agg_update_row (keys_type : KeysType) (s : RefSchema)
    (resident new : Row) : Row :=
  imap (λ i col,
          if decide (i < num_key_columns s)%nat then get_cell resident i
          else
            match keys_type with
            | DUP_KEYS => get_cell resident i
            | UNIQUE_KEYS => get_cell new i
            | AGG_KEYS => agg_cell (col_agg col) (get_cell resident i) (get_cell new i)
            end)
       (columns s).

(** A rowset writer that keeps the records it accepts and can be set to
    refuse the [add_row] call of a given rank, or to refuse to seal. *)
Record RecordingWriter : Type := mkWriter {
  written : list Row;
  sealed : nat;
  refuse_add_row_at : option nat;
  refuse_status : OLAPStatus;
  seal_status : OLAPStatus
}.

Definition recording_add_row (r : Row) (w : RecordingWriter) :
    OLAPStatus * RecordingWriter :=
  if decide (refuse_add_row_at w = Some (length (written w)))
  then (refuse_status w, w)
  else (OLAP_SUCCESS,
        mkWriter (written w ++ [r]) (sealed w) (refuse_add_row_at w)
          (refuse_status w) (seal_status w)).

Definition recording_seal (w : RecordingWriter) : OLAPStatus * RecordingWriter :=
  (seal_status w,
   mkWriter (written w) (S (sealed w)) (refuse_add_row_at w)
     (refuse_status w) (seal_status w)).

(** The reference collaborators, for any finalization of a record's cells
    and any rowset writer.  Finalization rewrites the record in place; the
    writer is handed the cells of the record. *)
Definition RefCollaborators
    (finalize_cells : RefSchema → Row → Row) (Writer : Type)
    (add_row : Row → Writer → OLAPStatus * Writer)
    (seal : Writer → OLAPStatus * Writer) : Collaborators := {|
  Schema := RefSchema;
  Tuple := RefTuple;
  SlotValue := Z;
  MemTracker := RefTracker;
  MemPool := RefPool;
  ObjectPool := unit;
  Table := RefTable;
  RowsetWriter := Writer;
  schema_size := ref_schema_size;
  tuple_is_null := ref_is_null;
  tuple_get_slot := ref_get_slot;
  MemTracker_new := ref_tracker_new;
  consumption := ref_consumption;
  MemPool_new := ref_pool_new;
  mem_tracker := pool_tracker;
  allocate := ref_allocate;
  ObjectPool_new := tt;
  column_consume := ref_column_consume;
  Table_new := ref_table_new;
  Table_Insert := ref_table_insert;
  Table_entries := table_entries;
  agg_finalize_row := λ s row p, write_row row (finalize_cells s (read_row p row)) p;
  writer_add_row := λ s row p w, add_row (read_row p row) w;
  writer_flush := seal
|}.

(** The instance used in examples: no running state to resolve at
    finalization, and the recording writer. *)
Definition Recording : Collaborators :=
  RefCollaborators (λ _ r, r) RecordingWriter recording_add_row recording_seal.

(** ** The state of a memtable on the reference collaborators *)

Section ReferenceState.
Context (finalize_cells : RefSchema → Row → Row) (Writer : Type)
  (add_row : Row → Writer → OLAPStatus * Writer)
  (seal : Writer → OLAPStatus * Writer).

(** What a write into the buffer at [buf] leaves alone: the tracker, the
    allocation mark and every other buffer. *)
Definition pool_frame (buf : addr) (p p' : RefPool) : Prop :=
  pool_tracker p' = pool_tracker p ∧ next_free p' = next_free p ∧
  ∀ a, a ≠ buf → read_row p' a = read_row p a.

(** The entries are in ascending key order and distinct, they and the
    scratch buffer were handed out by the pool, and the scratch buffer is
    not an entry. *)
Definition well_formed
    (e : @Env (RefCollaborators finalize_cells Writer add_row seal)) : Prop :=
  let m := this e in
  let p := _mem_pool m in
  let rows := table_entries (_skip_list m) in
  table_schema (_skip_list m) = _schema m ∧
  Sorted (row_le (_schema m) p) rows ∧
  NoDup rows ∧
  Forall (λ a, (a < next_free p)%N) rows ∧
  (_tuple_buf m < next_free p)%N ∧
  _tuple_buf m ∉ rows.

End ReferenceState.

(** A sequence of inserts. *)
Fixpoint inserts `{C : Collaborators} (tuples : list Tuple) : M unit :=
  match tuples with
  | [] => mret tt
  | tuple :: rest => insert tuple;; inserts rest
  end.

(** ** A small table for the examples

    One key column and one summed value column, both eight bytes wide. *)
Definition example_schema : RefSchema :=
  mkSchema [mkColumn 8 AGG_NONE; mkColumn 8 AGG_SUM] 1.

Definition example_slots : list SlotDescriptor := [mkSlot 0 0; mkSlot 1 1].

Definition accepting_writer : RecordingWriter := mkWriter [] 0 None (-1) 0.

Definition refusing_writer (rank : nat) : RecordingWriter :=
  mkWriter [] 0 (Some rank) (-5) 0.

(** A writer that accepts every record and fails to flush. *)
Definition unsealing_writer : RecordingWriter := mkWriter [] 0 None (-1) (-7).

(** A new memtable of the example table, reporting into a tracker of the
    given limit. *)
Definition example_memtable (keys_type : KeysType) (w : RecordingWriter)
    (limit : Z) : @Env Recording :=
  mkEnv (MemTable_new (C:=Recording) 7 example_schema example_slots keys_type
           w (Tracker limit "tablet" 0 NoTracker))
    0 0 5000 [].

Definition example_tuples : list RefTuple :=
  [[Some 3; Some 10]; [Some 1; Some 20]; [Some 3; Some 5]; [None; Some 1]].

(** The example memtable after the example tuples. *)
Definition example_filled (keys_type : KeysType) (w : RecordingWriter) :
    @Env Recording :=
  (inserts (C:=Recording) example_tuples (example_memtable keys_type w (-1))).2.


(** The records the entries of the index hold, in iteration order. *)
Definition resident_rows (e : @Env Recording) : list Row :=
  read_row (_mem_pool (this e)) <$> table_entries (_skip_list (this e)).


(** ** The same collaborators over another index *)

(** The reference collaborators over an index of one's choice: the arena,
    the decode step, finalization and the writer are those of
    [RefCollaborators], and [Table::Insert] is [table_insert]. *)
Definition IndexCollaborators
    (table_insert : addr → KeysType → RefTable → RefPool →
                    bool * RefTable * RefPool)
    (finalize_cells : RefSchema → Row → Row) (Writer : Type)
    (add_row : Row → Writer → OLAPStatus * Writer)
    (seal : Writer → OLAPStatus * Writer) : Collaborators := {|
  Schema := RefSchema;
  Tuple := RefTuple;
  SlotValue := Z;
  MemTracker := RefTracker;
  MemPool := RefPool;
  ObjectPool := unit;
  Table := RefTable;
  RowsetWriter := Writer;
  schema_size := ref_schema_size;
  tuple_is_null := ref_is_null;
  tuple_get_slot := ref_get_slot;
  MemTracker_new := ref_tracker_new;
  consumption := ref_consumption;
  MemPool_new := ref_pool_new;
  mem_tracker := pool_tracker;
  allocate := ref_allocate;
  ObjectPool_new := tt;
  column_consume := ref_column_consume;
  Table_new := ref_table_new;
  Table_Insert := table_insert;
  Table_entries := table_entries;
  agg_finalize_row := λ s row p, write_row row (finalize_cells s (read_row p row)) p;
  writer_add_row := λ s row p w, add_row (read_row p row) w;
  writer_flush := seal
|}.

(** Modelled from the spec: an index whose [Insert] applies the
    aggregation policy of the key type it is handed.  Entries and flag
    are those of insert-or-locate; on a collision the resident record of
    the equal key takes, in place, the policy's merge of itself and the
    given record. *)
Definition merging_table_insert (k : addr) (keys_type : KeysType)
    (t : RefTable) (p : RefPool) : bool * RefTable * RefPool :=
  let r := ref_table_insert k keys_type t p in
  let equal x := if compare_at (table_schema t) p x k is Eq then true else false in
  match (if r.1.1 then List.find equal (table_entries t) else None) with
  | Some x =>
      (true, r.1.2,
       write_row x
         (agg_update_row keys_type (table_schema t) (read_row p x) (read_row p k))
         p)
  | None => r
  end.

(** The instance of the examples over the merging index. *)
Definition Merging : Collaborators :=
  IndexCollaborators merging_table_insert (λ _ r, r) RecordingWriter
    recording_add_row recording_seal.

(** A new aggregate-key memtable of the example table over the merging
    index. *)
Definition merging_memtable : @Env Merging :=
  mkEnv (MemTable_new (C:=Merging) 7 example_schema example_slots AGG_KEYS
           accepting_writer (Tracker (-1) "tablet" 0 NoTracker))
    0 0 5000 [].

Definition merging_resident_rows (e : @Env Merging) : list Row :=
  read_row (_mem_pool (this e)) <$> table_entries (_skip_list (this e)).

(** ** Vocabulary of the further properties *)

Section FurtherVocabulary.
Context `{C : Collaborators}.

(** The records passed to the finalization calls of a trace. *)
Definition finalize_calls (cs : list Call) : list addr :=
  omap (λ c, if c is CallFinalize row then Some row else None) cs.

(** The [Insert] calls of a trace: the key, the key type and the flag
    that came back. *)
Definition insert_calls (cs : list Call) : list (addr * KeysType * bool) :=
  omap (λ c, if c is CallInsert k kt ow then Some (k, kt, ow) else None) cs.

(** The calls of [flush]: finalization and the two calls of the writer. *)
Definition is_drain_call (c : Call) : bool :=
  match c with
  | CallFinalize _ | CallAddRow _ _ | CallWriterFlush _ => true
  | _ => false
  end.

(** The calls of the decoding loop of [insert] for a tuple, from column
    [i] on: one per slot descriptor, on consecutive columns, with the null
    flag read at the slot's null indicator. *)
Definition consume_calls (tuple : Tuple) (row : addr) (i : nat)
    (slots : list SlotDescriptor) : list Call :=
  imap (λ j slot,
          CallConsume (i + j) row
            (tuple_is_null tuple (null_indicator_offset slot)))
       slots.

(** The members that are set by the constructor and describe the table. *)
Definition same_configuration (m m' : MemTable) : Prop :=
  _tablet_id m' = _tablet_id m ∧ _schema m' = _schema m ∧
  _slot_descs m' = _slot_descs m ∧ _keys_type m' = _keys_type m ∧
  _schema_size m' = _schema_size m.

(** The global counters and the timer. *)
Definition same_metrics (e e' : Env) : Prop :=
  memtable_flush_total e' = memtable_flush_total e ∧
  memtable_flush_duration_us e' = memtable_flush_duration_us e ∧
  timer_ns e' = timer_ns e.

(** Every record accepted. *)
Definition all_accepted (rows : list addr) : list (addr * OLAPStatus) :=
  (λ row, (row, OLAP_SUCCESS)) <$> rows.

(** The calls of a [flush] that succeeds on the entries [rows]. *)
Definition success_calls (rows : list addr) : list Call :=
  drain_calls (all_accepted rows) ++ [CallWriterFlush OLAP_SUCCESS].

(** What the loop of [flush] makes of the pool and the writer, by the
    collaborators' own operations: each record is finalized in the pool
    and then handed to the writer with the pool as finalization left it,
    up to the first refusal.  With that, the records handed over and the
    status [add_row] returned for each. *)
Fixpoint drain (schema : Schema) (rows : list addr) (pool : MemPool)
    (writer : RowsetWriter) :
    list (addr * OLAPStatus) * MemPool * RowsetWriter :=
  match rows with
  | [] => ([], pool, writer)
  | row :: rest =>
      let pool' := agg_finalize_row schema row pool in
      let r := writer_add_row schema row pool' writer in
      if not_ok r.1 then ([(row, r.1)], pool', r.2)
      else
        let d := drain schema rest pool' r.2 in
        ((row, r.1) :: d.1.1, d.1.2, d.2)
  end.

(** The status the loop ends with: that of the last record handed over,
    success when there was none. *)
Definition drain_status (done : list (addr * OLAPStatus)) : OLAPStatus :=
  default OLAP_SUCCESS (last done.*2).

(** What the decoding loop of [insert] makes of the two pools, by the
    schema's [consume]: column [i] takes the value and the null flag of
    the first slot, and so on. *)
Fixpoint decoded_pools (schema : Schema) (tuple : Tuple) (row : addr)
    (i : nat) (slots : list SlotDescriptor) (pool : MemPool)
    (objs : ObjectPool) : MemPool * ObjectPool :=
  match slots with
  | [] => (pool, objs)
  | slot :: rest =>
      let r := column_consume schema i row
                 (tuple_get_slot tuple (tuple_offset slot))
                 (tuple_is_null tuple (null_indicator_offset slot))
                 pool objs in
      decoded_pools schema tuple row (S i) rest r.1 r.2
  end.

(** The flag the index returns for a tuple and the members after its
    [insert], by the collaborators' own operations. *)
Definition insert_members (tuple : Tuple) (m : MemTable) : bool * MemTable :=
  let d := decoded_pools (_schema m) tuple (_tuple_buf m) 0 (_slot_descs m)
             (_mem_pool m) (_agg_object_pool m) in
  let r := Table_Insert (_tuple_buf m) (_keys_type m) (_skip_list m) d.1 in
  if r.1.1 then
    (true,
     mkMemTable (_tablet_id m) (_schema m) (_slot_descs m) (_keys_type m)
       (_rowset_writer m) (_schema_size m) r.2 d.2 (_tuple_buf m) r.1.2)
  else
    let a := allocate (_schema_size m) r.2 in
    (false,
     mkMemTable (_tablet_id m) (_schema m) (_slot_descs m) (_keys_type m)
       (_rowset_writer m) (_schema_size m) a.2 d.2 a.1 r.1.2).

(** The steps of a sequence of inserts, each with the scratch buffer the
    tuple was decoded into, the flag the index returned and the scratch
    buffer afterwards; and the members at the end. *)
Fixpoint inserts_members (tuples : list Tuple) (m : MemTable) :
    list (addr * bool * addr) * MemTable :=
  match tuples with
  | [] => ([], m)
  | tuple :: rest =>
      let r := insert_members tuple m in
      let rs := inserts_members rest r.2 in
      ((_tuple_buf m, r.1, _tuple_buf r.2) :: rs.1, rs.2)
  end.

End FurtherVocabulary.

(** The cell the decoding loop writes for a slot of a tuple, on the
    reference collaborators. *)
Definition cell_of (tuple : RefTuple) (slot : SlotDescriptor) : Cell :=
  if ref_is_null tuple (null_indicator_offset slot) then None
  else Some (ref_get_slot tuple (tuple_offset slot)).

(** The record a tuple decodes to: one cell per slot descriptor. *)
Definition decode_tuple (slots : list SlotDescriptor) (tuple : RefTuple) : Row :=
  cell_of tuple <$> slots.

(** The cells of a record in its first [n] columns. *)
Definition row_view (n : nat) (r : Row) : Row := get_cell r <$> seq 0 n.

(** Handing records to a writer one by one, up to the first refusal. *)
Fixpoint hand_over {Writer : Type}
    (add_row : Row → Writer → OLAPStatus * Writer) (rs : list Row)
    (w : Writer) : OLAPStatus * Writer :=
  match rs with
  | [] => (OLAP_SUCCESS, w)
  | r :: rest =>
      let '(st, w') := add_row r w in
      if not_ok st then (st, w') else hand_over add_row rest w'
  end.

(** * Part I: properties of the code, for any collaborators *)

(** Unfold the updates of the environment and project their fields. *)
Ltac env_simpl :=
  unfold with_call, with_this, set_mem_pool, set_rowset_writer,
    set_skip_list, set_tuple_buf, set_agg_object_pool;
  cbn [this memtable_flush_total memtable_flush_duration_us timer_ns calls
       _tablet_id _schema _slot_descs _keys_type _rowset_writer _schema_size
       _mem_pool _agg_object_pool _tuple_buf _skip_list fst snd].

Section MemTableFacts.
Context `{C : Collaborators}.

Lemma not_ok_false s : not_ok s = false ↔ s = OLAP_SUCCESS.
Proof.
  unfold not_ok, OLAP_SUCCESS. rewrite negb_false_iff. apply Z.eqb_eq.
Qed.

Lemma not_ok_true s : not_ok s = true ↔ s ≠ OLAP_SUCCESS.
Proof.
  unfold not_ok, OLAP_SUCCESS. rewrite negb_true_iff. apply Z.eqb_neq.
Qed.

Lemma new_calls_app e e' cs : calls e' = calls e ++ cs → new_calls e e' = cs.
Proof. intros H. unfold new_calls. by rewrite H, drop_app_length. Qed.

Lemma drain_calls_snoc done p :
  drain_calls (done ++ [p]) = drain_calls done ++ row_calls p.
Proof. unfold drain_calls. by rewrite bind_app. Qed.

Lemma drain_calls_cons p done :
  drain_calls (p :: done) = row_calls p ++ drain_calls done.
Proof. reflexivity. Qed.

Lemma add_row_calls_app cs1 cs2 :
  add_row_calls (cs1 ++ cs2) = add_row_calls cs1 ++ add_row_calls cs2.
Proof. apply omap_app. Qed.

Lemma writer_flush_calls_app cs1 cs2 :
  writer_flush_calls (cs1 ++ cs2) = writer_flush_calls cs1 ++ writer_flush_calls cs2.
Proof. apply omap_app. Qed.


Lemma allocate_calls_app cs1 cs2 :
  allocate_calls (cs1 ++ cs2) = allocate_calls cs1 ++ allocate_calls cs2.
Proof. apply omap_app. Qed.

Lemma add_row_calls_drain done : add_row_calls (drain_calls done) = done.
Proof.
  induction done as [|[row st] done IH]; [done|].
  by rewrite drain_calls_cons, add_row_calls_app, IH.
Qed.

Lemma writer_flush_calls_drain done : writer_flush_calls (drain_calls done) = [].
Proof.
  induction done as [|[row st] done IH]; [done|].
  by rewrite drain_calls_cons, writer_flush_calls_app, IH.
Qed.


Lemma allocate_calls_drain done : allocate_calls (drain_calls done) = [].
Proof.
  induction done as [|[row st] done IH]; [done|].
  by rewrite drain_calls_cons, allocate_calls_app, IH.
Qed.

(** *** One step of each collaborator call *)

Lemma finalize_row_run row e :
  finalize_row row e =
  (tt, with_call (CallFinalize row)
         (with_this (set_mem_pool
            (agg_finalize_row (_schema (this e)) row (_mem_pool (this e)))) e)).
Proof. reflexivity. Qed.

Lemma rowset_writer_add_row_run row e :
  rowset_writer_add_row row e =
  let r := writer_add_row (_schema (this e)) row (_mem_pool (this e))
             (_rowset_writer (this e)) in
  (r.1, with_call (CallAddRow row r.1) (with_this (set_rowset_writer r.2) e)).
Proof.
  unfold rowset_writer_add_row, mbind, M_bind, member. simpl.
  by destruct (writer_add_row _ _ _ _).
Qed.

Lemma rowset_writer_flush_run e :
  rowset_writer_flush e =
  let r := writer_flush (_rowset_writer (this e)) in
  (r.1, with_call (CallWriterFlush r.1) (with_this (set_rowset_writer r.2) e)).
Proof.
  unfold rowset_writer_flush, mbind, M_bind, member. simpl.
  by destruct (writer_flush _).
Qed.

Lemma mem_pool_allocate_run size e :
  mem_pool_allocate size e =
  let r := allocate size (_mem_pool (this e)) in
  (r.1, with_call (CallAllocate size r.1) (with_this (set_mem_pool r.2) e)).
Proof.
  unfold mem_pool_allocate, mbind, M_bind, member. simpl.
  by destruct (allocate _ _).
Qed.

Lemma schema_column_consume_run i row value is_null e :
  schema_column_consume i row value is_null e =
  let r := column_consume (_schema (this e)) i row value is_null
             (_mem_pool (this e)) (_agg_object_pool (this e)) in
  (tt, with_call (CallConsume i row is_null)
         (with_this (λ m, set_agg_object_pool r.2 (set_mem_pool r.1 m)) e)).
Proof.
  unfold schema_column_consume, mbind, M_bind, member. simpl.
  by destruct (column_consume _ _ _ _ _ _ _).
Qed.

Lemma skip_list_Insert_run k kt e :
  skip_list_Insert k kt e =
  let r := Table_Insert k kt (_skip_list (this e)) (_mem_pool (this e)) in
  (r.1.1, with_call (CallInsert k kt r.1.1)
            (with_this (λ m, set_mem_pool r.2 (set_skip_list r.1.2 m)) e)).
Proof.
  unfold skip_list_Insert, mbind, M_bind, member. simpl.
  by destruct (Table_Insert _ _ _ _) as [[? ?] ?].
Qed.

(** *** The loop of [flush] *)

Lemma flush_rows_spec it e :
  ∃ done pool writer,
    (flush_rows it e).2 = drained pool writer (drain_calls done) e ∧
    (((flush_rows it e).1 = OLAP_SUCCESS ∧ Forall accepted done ∧ done.*1 = it)
     ∨ (∃ front row rest,
          (flush_rows it e).1 ≠ OLAP_SUCCESS ∧ Forall accepted front ∧
          done = front ++ [(row, (flush_rows it e).1)] ∧
          it = front.*1 ++ row :: rest)).
Proof.
  revert e. induction it as [|row rest IH]; intros e.
  - exists [], (_mem_pool (this e)), (_rowset_writer (this e)). split.
    + destruct e as [[] ? ? ? ?]. unfold drained. simpl. by rewrite app_nil_r.
    + left. by repeat split.
  - cbn [flush_rows]. unfold mbind, M_bind.
    rewrite finalize_row_run. set (e1 := with_call (CallFinalize row) _).
    rewrite rowset_writer_add_row_run. cbv zeta.
    destruct (writer_add_row (_schema (this e1)) row (_mem_pool (this e1))
                (_rowset_writer (this e1))) as [st w'] eqn:Hw.
    cbn [fst snd]. destruct (not_ok st) eqn:Hst.
    + exists [(row, st)], (_mem_pool (this e1)), w'. split.
      { unfold drained, e1. env_simpl. by rewrite <-app_assoc. }
      right. exists [], row, rest. apply not_ok_true in Hst. by repeat split.
    + apply not_ok_false in Hst. subst st.
      set (e2 := with_call _ (with_this (set_rowset_writer w') _)).
      destruct (IH e2) as (done & pool & writer & Henv & Hcases).
      exists ((row, OLAP_SUCCESS) :: done), pool, writer. split.
      * rewrite Henv. unfold drained, e2, e1. env_simpl.
        by rewrite <-!app_assoc.
      * destruct Hcases as [(Hok & Hacc & Hrows)|(front & r & tl & Hbad & Hacc & Hd & Hit)].
        -- left. repeat split; [done| |by rewrite fmap_cons, Hrows].
           by constructor.
        -- right. exists ((row, OLAP_SUCCESS) :: front), r, tl.
           repeat split; [done|by constructor|by rewrite Hd|by rewrite Hit].
Qed.

(** [flush], whatever the writer does: the calls it adds are the loop's
    calls on a prefix of the entries followed by at most one [flush] of the
    writer, as one of the three runs of [FlushRun]. *)
Lemma flush_run e :
  ∃ done seal pool writer,
    FlushRun (Table_entries (_skip_list (this e))) (flush e).1 done seal ∧
    calls (flush e).2 = calls e ++ drain_calls done ++ seal ∧
    this (flush e).2 = set_rowset_writer writer (set_mem_pool pool (this e)).
Proof.
  unfold flush, mbind, M_bind, member, SeekToFirst. cbn [fst snd].
  destruct (flush_rows_spec (Table_entries (_skip_list (this e))) e)
    as (done & pool & writer & Henv & Hcases).
  destruct (flush_rows _ e) as [st e1]. cbn [fst snd] in *. subst e1.
  destruct Hcases as [(-> & Hacc & Hrows)|(front & r & tl & Hbad & Hacc & -> & Hit)].
  - replace (not_ok OLAP_SUCCESS) with false by done.
    rewrite rowset_writer_flush_run. cbv zeta.
    set (e1 := drained pool writer _ e).
    destruct (writer_flush (_rowset_writer (this e1))) as [st w'] eqn:Hw.
    cbn [fst snd]. destruct (not_ok st) eqn:Hst.
    + apply not_ok_true in Hst.
      exists done, [CallWriterFlush st], pool, w'. split; [by constructor|].
      unfold e1, drained. env_simpl. by rewrite <-app_assoc.
    + apply not_ok_false in Hst. subst st.
      exists done, [CallWriterFlush OLAP_SUCCESS], pool, w'.
      split; [by constructor|].
      unfold e1, drained. env_simpl. by rewrite <-app_assoc.
  - apply not_ok_true in Hbad as Hbad'. rewrite Hbad'.
    exists (front ++ [(r, st)]), [], pool, writer. split; [by econstructor|].
    unfold drained. env_simpl. by rewrite app_nil_r.
Qed.


Lemma flush_new_calls e :
  ∃ done seal,
    FlushRun (Table_entries (_skip_list (this e))) (flush e).1 done seal ∧
    new_calls e (flush e).2 = drain_calls done ++ seal.
Proof.
  destruct (flush_run e) as (done & seal & ? & ? & Hrun & Hcalls & _).
  exists done, seal. split; [done|]. by apply new_calls_app.
Qed.

(** *** [insert] *)

(** The decoding loop, with a relation [R] that every [consume] on the
    row keeps between the pool before and the pool after. *)
Lemma consume_slots_spec (R : relation MemPool) `{!PreOrder R}
    tuple row i slots e :
  (∀ s j v b p o, R p (column_consume s j row v b p o).1) →
  ∃ pool objs cs,
    consume_slots tuple row i slots e = (tt, decoded pool objs cs e) ∧
    R (_mem_pool (this e)) pool ∧ Forall (consume_on row) cs.
Proof.
  intros HR. revert i e. induction slots as [|slot rest IH]; intros i e.
  - exists (_mem_pool (this e)), (_agg_object_pool (this e)), [].
    repeat split; [|done|done].
    destruct e as [[] ? ? ? ?]. unfold decoded. cbn. by rewrite app_nil_r.
  - cbn [consume_slots]. unfold mbind, M_bind.
    rewrite schema_column_consume_run. cbv zeta.
    set (r := column_consume _ _ _ _ _ _ _).
    set (e1 := with_call _ _).
    destruct (IH (S i) e1) as (pool & objs & cs & -> & Hpool & Hcs).
    exists pool, objs, (CallConsume i row
      (tuple_is_null tuple (null_indicator_offset slot)) :: cs).
    repeat split.
    + unfold decoded, e1. env_simpl. by rewrite <-app_assoc.
    + etrans; [|exact Hpool]. unfold e1. env_simpl. apply HR.
    + constructor; [by eexists _, _|done].
Qed.

Lemma insert_spec (R : relation MemPool) `{!PreOrder R} tuple e :
  let m := this e in
  let buf := _tuple_buf m in
  (∀ s j v b p o, R p (column_consume s j buf v b p o).1) →
  ∃ pool objs cs,
    R (_mem_pool m) pool ∧ Forall (consume_on buf) cs ∧
    (consume_slots tuple buf 0 (_slot_descs m) e).2 = decoded pool objs cs e ∧
    let r := Table_Insert buf (_keys_type m) (_skip_list m) pool in
    insert tuple e =
    (tt, if r.1.1
         then inserted r.2 objs buf r.1.2
                (cs ++ [CallInsert buf (_keys_type m) true]) e
         else
           let a := allocate (_schema_size m) r.2 in
           inserted a.2 objs a.1 r.1.2
             (cs ++ [CallInsert buf (_keys_type m) false;
                     CallAllocate (_schema_size m) a.1]) e).
Proof.
  intros m buf HR.
  destruct (consume_slots_spec R tuple buf 0 (_slot_descs m) e HR)
    as (pool & objs & cs & Hrun & Hpool & Hcs).
  exists pool, objs, cs. repeat split; [done|done|by rewrite Hrun|].
  unfold insert, mbind, M_bind, member. cbn [fst snd]. fold m. fold buf.
  rewrite Hrun. rewrite skip_list_Insert_run. cbv zeta.
  unfold decoded. env_simpl. subst buf m.
  destruct (Table_Insert _ _ _ pool) as [[ow table'] pool'].
  cbn [fst snd]. destruct ow; cbn [negb].
  - unfold mret, M_ret, inserted, decoded. env_simpl. by rewrite <-app_assoc.
  - rewrite mem_pool_allocate_run. cbv zeta.
    unfold mret, M_ret, assign, decoded, inserted.
    env_simpl. by rewrite <-!app_assoc.
Qed.

(** [insert] with no assumption on the collaborators. *)
Lemma insert_spec_any tuple e :
  let m := this e in
  let buf := _tuple_buf m in
  ∃ pool objs cs,
    Forall (consume_on buf) cs ∧
    (consume_slots tuple buf 0 (_slot_descs m) e).2 = decoded pool objs cs e ∧
    let r := Table_Insert buf (_keys_type m) (_skip_list m) pool in
    insert tuple e =
    (tt, if r.1.1
         then inserted r.2 objs buf r.1.2
                (cs ++ [CallInsert buf (_keys_type m) true]) e
         else
           let a := allocate (_schema_size m) r.2 in
           inserted a.2 objs a.1 r.1.2
             (cs ++ [CallInsert buf (_keys_type m) false;
                     CallAllocate (_schema_size m) a.1]) e).
Proof.
  intros m buf.
  assert (PreOrder (λ _ _ : MemPool, True)) by (by split).
  destruct (insert_spec (λ _ _, True) tuple e) as (pool & objs & cs & H');
    [done|].
  exists pool, objs, cs. tauto.
Qed.

Lemma Open_schema_size e :
  Open e → _schema_size (this e) = schema_size (_schema (this e)).
Proof.
  induction 1 as [tablet_id schema slot_descs keys_type writer parent ????|e tuple _ IH].
  - unfold MemTable_new. cbn [this].
    destruct (allocate _ _) as [buf pool]. by destruct (Table_new _ _).
  - destruct (insert_spec_any tuple e) as (pool & objs & cs & _ & _ & ->).
    cbv zeta. cbn [snd]. by destruct (Table_Insert _ _ _ _).1.1.
Qed.

Lemma allocate_calls_consume row cs :
  Forall (consume_on row) cs → allocate_calls cs = [].
Proof.
  induction 1 as [|c cs (i & b & ->) _ IH]; [done|].
  unfold allocate_calls in *. by cbn.
Qed.

(** The loop of [flush] in the words of the source: while the cursor is
    [Valid], take its [key], and go on from [Next]. *)
Lemma flush_rows_unfold (it : Iterator) :
  flush_rows it =
  if Valid it then
    (let row := key it in
     finalize_row row;;
     st ← rowset_writer_add_row row;
     if not_ok st then mret st else flush_rows (Next it))
  else mret OLAP_SUCCESS.
Proof. by destruct it. Qed.

Lemma Open_inserts tuples e : Open e → Open (inserts tuples e).2.
Proof.
  revert e. induction tuples as [|tuple rest IH]; intros e Hopen; [done|].
  cbn [inserts]. unfold mbind, M_bind.
  pose proof (Open_insert e tuple Hopen) as H1.
  destruct (insert tuple e) as [[] e1]. by apply IH.
Qed.

(** ** Theorems on the code alone *)

(** C9: [close()] is exactly [flush()]: in every state, it performs the
    same drain, leaves the same state and returns the same status. *)
Theorem close_is_flush (e : Env) : close e = flush e.
Proof. reflexivity. Qed.

(** C2: if the writer's [add_row] fails on the k-th record handed to it
    during [flush] (the call of rank [k], counted from 0, returns a status
    other than success), then [flush] returns that status, the records
    handed to the writer are the first k+1 entries and no more, and the
    writer's [flush] is not called. *)
Theorem flush_stops_at_refused_add_row (e : Env) (k : nat) (row : addr)
    (st : OLAPStatus) :
  let cs := new_calls e (flush e).2 in
  let rows := Table_entries (_skip_list (this e)) in
  add_row_calls cs !! k = Some (row, st) →
  st ≠ OLAP_SUCCESS →
  (flush e).1 = st ∧
  rows !! k = Some row ∧
  (add_row_calls cs).*1 = take (S k) rows ∧
  writer_flush_calls cs = [].
Proof.
  intros cs rows Hk Hst. subst cs rows.
  destruct (flush_new_calls e) as (done & seal & Hrun & Hnew).
  rewrite Hnew in *. clear Hnew.
  rewrite add_row_calls_app, add_row_calls_drain in *.
  rewrite writer_flush_calls_app, writer_flush_calls_drain.
  assert (Hacc : ∀ (l : list (addr * OLAPStatus)),
            Forall accepted l → l !! k = Some (row, st) → False).
  { intros l Hl Hlk. eapply Forall_lookup_1 in Hl; [|exact Hlk]. done. }
  remember (flush e).1 as ret eqn:Hret. clear Hret.
  destruct Hrun as [front r st' rest Hfront Hbad Hrows
                   |done st' Hdone Hrows Hbad
                   |done Hdone Hrows].
  - cbn [add_row_calls omap app] in *. rewrite app_nil_r in *.
    destruct (decide (k < length front)%nat) as [Hlt|Hge].
    { rewrite lookup_app_l in Hk by done. by destruct (Hacc front). }
    rewrite lookup_app_r in Hk by lia.
    destruct (k - length front)%nat as [|?] eqn:Hsub; [|done].
    simplify_eq/=. assert (k = length front) as -> by lia.
    rewrite Hrows. repeat split.
    + rewrite lookup_app_r by (by rewrite length_fmap).
      by rewrite length_fmap, Nat.sub_diag.
    + rewrite fmap_app. cbn [fmap list_fmap fst].
      rewrite take_app_ge by (rewrite length_fmap; lia).
      rewrite length_fmap.
      by replace (S (length front) - length front)%nat with 1%nat by lia.
  - cbn [add_row_calls omap] in Hk. rewrite app_nil_r in Hk.
    by destruct (Hacc done).
  - cbn [add_row_calls omap] in Hk. rewrite app_nil_r in Hk.
    by destruct (Hacc done).
Qed.


(** C3: a call to [insert] on an open memtable decodes into the scratch
    buffer and calls the index's [Insert] on it once; the index it keeps
    is the one [Insert] returned.  When the flag that comes back is false
    (the key did not exist), [insert] allocates one buffer of the
    schema's row footprint from the pool as [Insert] left it: the scratch
    buffer from then on is the buffer [allocate] returned, and the pool is
    the pool [allocate] left.  When the flag is true, [insert] allocates
    nothing: the scratch buffer stays the same and the pool is the pool
    [Insert] left. *)
Theorem insert_scratch_buffer (e : Env) (tuple : Tuple) :
  Open e →
  let m := this e in
  let e1 := (consume_slots tuple (_tuple_buf m) 0 (_slot_descs m) e).2 in
  let r := Table_Insert (_tuple_buf m) (_keys_type m) (_skip_list (this e1))
             (_mem_pool (this e1)) in
  let overwritten := r.1.1 in
  let e' := (insert tuple e).2 in
  let cs' := new_calls e e' in
  let size := schema_size (_schema m) in
  _skip_list (this e') = r.1.2 ∧
  ∃ cs : list Call,
    Forall (consume_on (_tuple_buf m)) cs ∧
    if overwritten then
      cs' = cs ++ [CallInsert (_tuple_buf m) (_keys_type m) true] ∧
      allocate_calls cs' = [] ∧
      _tuple_buf (this e') = _tuple_buf m ∧
      _mem_pool (this e') = r.2
    else
      cs' = cs ++ [CallInsert (_tuple_buf m) (_keys_type m) false;
                   CallAllocate size (_tuple_buf (this e'))] ∧
      allocate_calls cs' = [(size, _tuple_buf (this e'))] ∧
      _tuple_buf (this e') = (allocate size r.2).1 ∧
      _mem_pool (this e') = (allocate size r.2).2.
Proof.
  intros Hopen m e1 r overwritten e' cs' size.
  subst cs' size e' overwritten r e1 m.
  destruct (insert_spec_any tuple e) as (pool & objs & cs & Hcs & Hdec & Hrun).
  cbv zeta in Hrun, Hdec. rewrite Hrun, Hdec. clear Hrun Hdec.
  rewrite <-(Open_schema_size e Hopen).
  unfold decoded. env_simpl.
  destruct (Table_Insert _ _ _ pool) as [[ow table'] pool'].
  cbn [fst snd]. destruct ow.
  - split; [done|]. exists cs. split; [done|].
    rewrite (new_calls_app e _ (cs ++ [CallInsert (_tuple_buf (this e))
                                         (_keys_type (this e)) true]))
      by done.
    repeat split.
    by rewrite allocate_calls_app, (allocate_calls_consume _ _ Hcs).
  - split; [done|]. exists cs. split; [done|].
    set (a := allocate (_schema_size (this e)) pool').
    rewrite (new_calls_app e _
      (cs ++ [CallInsert (_tuple_buf (this e)) (_keys_type (this e)) false;
              CallAllocate (_schema_size (this e)) a.1])) by done.
    split; [done|]. split; [|done].
    by rewrite allocate_calls_app, (allocate_calls_consume _ _ Hcs).
Qed.

(** C5, amended: [insert] applies no aggregation policy and holds no
    handle on a resident record.  It passes the scratch buffer and the key
    type to the index's [Insert] and gets the flag back; the index it
    keeps is the one [Insert] returned, and when the flag is true (an
    equal key exists) [insert] makes no further call and changes nothing:
    the memtable is left as [Insert] left it, so whatever becomes of the
    resident record is the work of [Insert]. *)
Theorem insert_leaves_merging_to_index (e : Env) (tuple : Tuple) :
  let m := this e in
  let buf := _tuple_buf m in
  let e1 := (consume_slots tuple buf 0 (_slot_descs m) e).2 in
  let r := Table_Insert buf (_keys_type m) (_skip_list (this e1))
             (_mem_pool (this e1)) in
  let e' := (insert tuple e).2 in
  _skip_list (this e') = r.1.2 ∧
  if r.1.1 then
    this e' = set_mem_pool r.2 (set_skip_list r.1.2 (this e1)) ∧
    new_calls e1 e' = [CallInsert buf (_keys_type m) true]
  else
    ∃ size a, new_calls e1 e' = [CallInsert buf (_keys_type m) false;
                                 CallAllocate size a].
Proof.
  intros m buf e1 r e'. subst e' r e1 buf m.
  destruct (insert_spec_any tuple e) as (pool & objs & cs & Hcs & Hdec & Hrun).
  cbv zeta in Hrun, Hdec. rewrite Hrun, Hdec. clear Hrun Hdec.
  unfold decoded. env_simpl.
  destruct (Table_Insert _ _ _ pool) as [[ow table'] pool'].
  cbn [fst snd]. unfold inserted. destruct ow; env_simpl.
  - split; [done|]. split; [done|].
    apply new_calls_app. env_simpl. by rewrite app_assoc.
  - split; [done|]. eexists _, _.
    apply new_calls_app. env_simpl. by rewrite app_assoc.
Qed.

(** *** Tracked consumption *)

#[local] Instance consumption_le_preorder : PreOrder consumption_le.
Proof.
  split; unfold consumption_le; [intros ?; lia|intros ??? ??; lia].
Qed.

Lemma insert_consumption `{!ArenaGrows} tuple e :
  consumption_le (_mem_pool (this e)) (_mem_pool (this (insert tuple e).2)).
Proof.
  destruct (insert_spec consumption_le tuple e)
    as (pool & objs & cs & Hle & _ & _ & Hrun).
  { intros. apply consume_grows. }
  cbv zeta in Hrun. rewrite Hrun. clear Hrun. cbn [snd].
  etrans; [exact Hle|].
  pose proof (Insert_grows (_tuple_buf (this e)) (_keys_type (this e))
                (_skip_list (this e)) pool) as HI.
  destruct (Table_Insert _ _ _ pool) as [[ow table'] pool'].
  cbn [fst snd] in *. destruct ow; [done|].
  unfold inserted. env_simpl. etrans; [exact HI|]. apply allocate_grows.
Qed.

Lemma inserts_consumption `{!ArenaGrows} tuples e :
  consumption_le (_mem_pool (this e)) (_mem_pool (this (inserts tuples e).2)).
Proof.
  revert e. induction tuples as [|tuple rest IH]; intros e; [done|].
  cbn [inserts]. unfold mbind, M_bind.
  pose proof (insert_consumption tuple e) as H1.
  destruct (insert tuple e) as [[] e1]. cbn [snd] in H1.
  etrans; [exact H1|]. apply IH.
Qed.

(** C6: [memory_usage()] returns the tracked consumption of the pool's
    tracker and changes nothing; across any sequence of inserts its value
    does not decrease, given that no collaborator handed the pool lowers
    the tracked consumption. *)
Theorem memory_usage_monotone (Hgrows : ArenaGrows) (e : Env)
    (tuples : list Tuple) :
  memory_usage e = (consumption (mem_tracker (_mem_pool (this e))), e) ∧
  ((memory_usage e).1 ≤ (memory_usage (inserts tuples e).2).1)%N.
Proof.
  split; [reflexivity|]. apply inserts_consumption.
Qed.

End MemTableFacts.

(** * Part II: the code with the reference collaborators *)

(** ** The comparator and the index *)

Lemma cell_compare_antisym a b : cell_compare a b = CompOpp (cell_compare b a).
Proof. destruct a, b; simpl; try done. apply Z.compare_antisym. Qed.

Lemma cells_compare_antisym a b :
  cells_compare a b = CompOpp (cells_compare b a).
Proof.
  revert b. induction a as [|x a IH]; intros [|y b]; simpl; try done.
  rewrite (cell_compare_antisym x y), IH.
  by destruct (cell_compare y x).
Qed.

Lemma cell_compare_eq x y : cell_compare x y = Eq → x = y.
Proof.
  destruct x, y; simpl; try done. by intros ->%Z.compare_eq.
Qed.

Lemma cell_compare_refl x : cell_compare x x = Eq.
Proof. destruct x; simpl; [apply Z.compare_refl|done]. Qed.

Lemma cell_compare_lt_trans x y z :
  cell_compare x y = Lt → cell_compare y z = Lt → cell_compare x z = Lt.
Proof.
  destruct x, y, z; simpl; try done.
  rewrite !Z.compare_lt_iff. lia.
Qed.

Lemma cells_compare_le_trans a b c :
  cells_compare a b ≠ Gt → cells_compare b c ≠ Gt → cells_compare a c ≠ Gt.
Proof.
  revert b c. induction a as [|x a IH]; intros [|y b] [|z c]; simpl; try done.
  destruct (cell_compare x y) eqn:Hxy; [|destruct (cell_compare y z) eqn:Hyz|];
    try done.
  - apply cell_compare_eq in Hxy as ->.
    destruct (cell_compare y z); try done. apply IH.
  - apply cell_compare_eq in Hyz as ->. by rewrite Hxy.
  - by rewrite (cell_compare_lt_trans x y z).
Qed.

#[local] Instance row_le_transitive s p : Transitive (row_le s p).
Proof. intros a b c. apply cells_compare_le_trans. Qed.

Lemma compare_at_antisym s p l r :
  compare_at s p l r = CompOpp (compare_at s p r l).
Proof. apply cells_compare_antisym. Qed.

Lemma compare_at_ext s p p' l r :
  read_row p' l = read_row p l → read_row p' r = read_row p r →
  compare_at s p' l r = compare_at s p l r.
Proof. unfold compare_at. by intros -> ->. Qed.

Lemma Sorted_ext_in {A} (R R' : relation A) (l : list A) :
  (∀ a b, a ∈ l → b ∈ l → R a b → R' a b) → Sorted R l → Sorted R' l.
Proof.
  intros HR Hs. induction Hs as [|a l Hs IH Hhd]; [constructor|].
  constructor.
  - apply IH. intros x y Hx Hy. apply HR; by right.
  - destruct Hhd as [|b l Hab]; constructor.
    apply HR; [by left|right; by left|done].
Qed.

Section InsertOrLocate.
Variable c : addr → addr → comparison.
Hypothesis c_antisym : ∀ a b, c a b = CompOpp (c b a).

Abbreviation le := (ascending c).

Lemma insert_or_locate_hd dup k x l :
  le x k → HdRel le x l → HdRel le x (insert_or_locate (λ y, c y k) dup k l).2.
Proof.
  intros Hxk Hhd. destruct l as [|y l]; [by constructor|].
  inversion_clear Hhd. cbn [insert_or_locate].
  destruct (c y k); [destruct dup|..]; by constructor.
Qed.

Lemma insert_or_locate_sorted dup k l :
  Sorted le l → Sorted le (insert_or_locate (λ y, c y k) dup k l).2.
Proof.
  induction 1 as [|x l Hs IH Hhd]; [by repeat constructor|].
  cbn [insert_or_locate]. destruct (c x k) eqn:Hc.
  - destruct dup; [|by constructor].
    constructor; [done|]. apply insert_or_locate_hd; [|done].
    unfold ascending. by rewrite Hc.
  - constructor; [done|]. apply insert_or_locate_hd; [|done].
    unfold ascending. by rewrite Hc.
  - cbn [snd]. constructor; [by constructor|]. constructor.
    unfold ascending. rewrite c_antisym, Hc. done.
Qed.

Lemma insert_or_locate_entries dup k l :
  let r := insert_or_locate (λ y, c y k) dup k l in
  if r.1 then r.2 = l else r.2 ≡ₚ k :: l.
Proof.
  induction l as [|x l IH]; [by cbn|].
  cbn [insert_or_locate]. cbv zeta in IH.
  destruct (c x k); [destruct dup|..]; cbn [fst snd]; try done.
  - destruct (insert_or_locate _ true k l) as [[] l']; cbn [fst snd] in *.
    + by rewrite IH.
    + by rewrite IH, Permutation_swap.
  - destruct (insert_or_locate _ dup k l) as [[] l']; cbn [fst snd] in *.
    + by rewrite IH.
    + by rewrite IH, Permutation_swap.
Qed.

(** In a duplicate-key table no key collides. *)
Lemma insert_or_locate_dup k l :
  (insert_or_locate (λ y, c y k) true k l).1 = false.
Proof.
  induction l as [|x l IH]; [done|].
  cbn [insert_or_locate]. by destruct (c x k).
Qed.

End InsertOrLocate.

(** ** The open memtable is well formed *)

Section ReferenceFacts.
Context (finalize_cells : RefSchema → Row → Row) (Writer : Type)
  (add_row : Row → Writer → OLAPStatus * Writer)
  (seal : Writer → OLAPStatus * Writer).

Abbreviation Ref := (RefCollaborators finalize_cells Writer add_row seal).
Abbreviation REnv := (@Env Ref).

#[local] Instance pool_frame_preorder buf : PreOrder (pool_frame buf).
Proof.
  split.
  - by intros p.
  - intros p1 p2 p3 (Ht1 & Hn1 & Hr1) (Ht2 & Hn2 & Hr2).
    split; [congruence|]. split; [congruence|].
    intros a Ha. by rewrite Hr2, Hr1.
Qed.

Lemma read_write_row_ne a b r p : a ≠ b → read_row (write_row b r p) a = read_row p a.
Proof. intros Hne. unfold read_row, write_row. simpl. by rewrite lookup_insert_ne. Qed.

Lemma read_write_row a r p : read_row (write_row a r p) a = r.
Proof. unfold read_row, write_row. simpl. by rewrite lookup_insert_eq. Qed.

Lemma consume_pool_frame s i buf v b p o :
  pool_frame buf p (ref_column_consume s i buf v b p o).1.
Proof.
  repeat split. intros a Ha. by apply read_write_row_ne.
Qed.

Lemma Sorted_row_le_frame s p p' rows :
  (∀ a, a ∈ rows → read_row p' a = read_row p a) →
  Sorted (row_le s p) rows → Sorted (row_le s p') rows.
Proof.
  intros Hread. apply Sorted_ext_in. intros a b Ha Hb.
  unfold row_le, ascending. by rewrite (compare_at_ext s p p') by by apply Hread.
Qed.

Lemma ref_schema_size_pos (s : RefSchema) :
  columns s ≠ [] → (0 < ref_schema_size s)%N.
Proof.
  unfold ref_schema_size. destruct (columns s) as [|c cs]; [done|].
  intros _. simpl. lia.
Qed.

Lemma well_formed_new tablet_id (schema : RefSchema) slot_descs keys_type
    (writer : Writer) parent total us timer cs :
  (0 < ref_schema_size schema)%N →
  well_formed finalize_cells Writer add_row seal
    (mkEnv (MemTable_new (C:=Ref) tablet_id schema slot_descs keys_type
              writer parent) total us timer cs).
Proof.
  intros Hpos. unfold well_formed, MemTable_new. simpl.
  repeat split; try constructor; [lia|]. apply not_elem_of_nil.
Qed.

Lemma well_formed_insert (e : REnv) (tuple : RefTuple) :
  _schema_size (this e) = ref_schema_size (_schema (this e)) →
  (0 < ref_schema_size (_schema (this e)))%N →
  well_formed finalize_cells Writer add_row seal e →
  well_formed finalize_cells Writer add_row seal (insert (C:=Ref) tuple e).2.
Proof.
  intros Hsize Hpos (Hschema & Hsorted & Hnodup & Halloc & Hbuf & Hfresh).
  destruct (insert_spec (C:=Ref) (pool_frame (_tuple_buf (this e))) tuple e)
    as (pool & objs & cs & (Htr & Hnext & Hrows) & _ & _ & Hrun).
  { intros. apply consume_pool_frame. }
  cbv zeta in Hrun. rewrite Hrun. clear Hrun. cbn [snd].
  set (buf := _tuple_buf (this e)) in *.
  set (rows := table_entries (_skip_list (this e))) in *.
  assert (Hsorted1 : Sorted (row_le (_schema (this e)) pool) rows).
  { eapply Sorted_row_le_frame; [|exact Hsorted].
    intros a Ha. apply Hrows. intros ->. done. }
  cbn [Table_Insert RefCollaborators]. unfold ref_table_insert. cbn [fst snd].
  fold rows. rewrite Hschema.
  pose proof (insert_or_locate_sorted (compare_at (_schema (this e)) pool)
                (compare_at_antisym _ _)
                (bool_decide (_keys_type (this e) = DUP_KEYS)) buf rows
                Hsorted1) as Hsorted2.
  pose proof (insert_or_locate_entries (compare_at (_schema (this e)) pool)
                (bool_decide (_keys_type (this e) = DUP_KEYS)) buf rows)
    as Hentries.
  cbv zeta in Hentries.
  destruct (insert_or_locate _ _ buf rows) as [ow rows'].
  cbn [fst snd] in *. destruct ow.
  - subst rows'. unfold well_formed, inserted. env_simpl. cbn [table_schema table_entries].
    fold buf. fold rows. rewrite Hnext. by repeat split.
  - unfold well_formed, inserted. env_simpl.
    cbn [table_schema table_entries allocate RefCollaborators ref_allocate
         fst snd next_free].
    assert (Hin : ∀ a, a ∈ rows' ↔ a = buf ∨ a ∈ rows).
    { intros a. rewrite Hentries. apply elem_of_cons. }
    split; [done|]. split; [|split; [|split; [|split]]].
    + revert Hsorted2. apply Sorted_ext_in. intros a b _ _.
      by unfold row_le, ascending, compare_at, read_row.
    + rewrite Hentries. by constructor.
    + apply Forall_forall. intros a [->|Ha]%Hin.
      * rewrite Hnext. lia.
      * rewrite Forall_forall in Halloc. specialize (Halloc a Ha).
        rewrite Hnext. lia.
    + rewrite Hsize. lia.
    + intros [Heq|Ha]%Hin.
      * rewrite Hnext in Heq. lia.
      * rewrite Forall_forall in Halloc. specialize (Halloc _ Ha).
        rewrite Hnext in Halloc. lia.
Qed.

Lemma insert_schema (e : REnv) tuple :
  _schema (this (insert (C:=Ref) tuple e).2) = _schema (this e) ∧
  _keys_type (this (insert (C:=Ref) tuple e).2) = _keys_type (this e).
Proof.
  destruct (insert_spec_any (C:=Ref) tuple e) as (pool & objs & cs & _ & _ & ->).
  cbv zeta. cbn [snd]. by destruct (Table_Insert _ _ _ _).1.1.
Qed.

Lemma Open_well_formed (e : REnv) :
  Open e → (0 < ref_schema_size (_schema (this e)))%N →
  well_formed finalize_cells Writer add_row seal e.
Proof.
  induction 1 as [tablet_id schema slot_descs keys_type writer parent ????|e tuple Hopen IH].
  - intros Hpos. by apply well_formed_new.
  - destruct (insert_schema e tuple) as [Hs _]. rewrite Hs. intros Hpos.
    apply well_formed_insert; [|done|by apply IH].
    by apply (Open_schema_size (C:=Ref)).
Qed.

Lemma ref_tracker_consume_consumption bytes t :
  (ref_consumption t ≤ ref_consumption (ref_tracker_consume bytes t))%N.
Proof. destruct t; simpl; lia. Qed.

(** The reference arena keeps the accounting contract. *)
Lemma ref_arena_grows : ArenaGrows (C:=Ref).
Proof.
  split.
  - intros size p. apply ref_tracker_consume_consumption.
  - by intros.
  - by intros.
Qed.

(** ** Theorems on the code with the reference collaborators *)

Lemma ref_flush_rows it (e : REnv) :
  NoDup it →
  let p := _mem_pool (this e) in
  let s := _schema (this e) in
  let r := hand_over add_row ((λ a, finalize_cells s (read_row p a)) <$> it)
             (_rowset_writer (this e)) in
  let e' := (flush_rows (C:=Ref) it e).2 in
  (flush_rows (C:=Ref) it e).1 = r.1 ∧
  _rowset_writer (this e') = r.2 ∧
  _schema (this e') = s ∧
  (∀ a, a ∉ it → read_row (_mem_pool (this e')) a = read_row p a) ∧
  (r.1 = OLAP_SUCCESS →
   ∀ a, a ∈ it →
        read_row (_mem_pool (this e')) a = finalize_cells s (read_row p a)).
Proof.
  intros Hnodup. revert e.
  induction Hnodup as [|a rest Hnotin Hnodup IH]; intros e p s r e';
    subst r e' p s.
  - cbn. repeat split; try done. intros _ a Ha. by apply elem_of_nil in Ha.
  - cbn [flush_rows]. unfold mbind, M_bind.
    rewrite finalize_row_run. set (e1 := with_call (CallFinalize a) _).
    rewrite rowset_writer_add_row_run. cbv zeta.
    set (p := _mem_pool (this e)) in *. set (s := _schema (this e)) in *.
    set (p1 := write_row a (finalize_cells s (read_row p a)) p).
    change (writer_add_row (_schema (this e1)) a (_mem_pool (this e1))
              (_rowset_writer (this e1)))
      with (add_row (read_row p1 a) (_rowset_writer (this e))).
    assert (Hread : read_row p1 a = finalize_cells s (read_row p a))
      by apply read_write_row.
    rewrite Hread. clear Hread.
    rewrite fmap_cons. cbn [hand_over].
    destruct (add_row (finalize_cells s (read_row p a)) (_rowset_writer (this e)))
      as [st w'] eqn:Hadd.
    cbn [fst snd]. destruct (not_ok st) eqn:Hst.
    + unfold mret, M_ret. cbn [fst snd]. split; [done|]. split; [done|].
      split; [done|]. split.
      * intros b Hb. apply not_elem_of_cons in Hb as [Hne _].
        change (read_row p1 b = read_row p b). by apply read_write_row_ne.
      * intros Hok. by apply not_ok_true in Hst.
    + set (e2 := with_call (CallAddRow a st) _).
      destruct (IH e2) as (Hst2 & Hw2 & Hs2 & Hother & Hfin).
      change (_mem_pool (this e2)) with p1 in *.
      change (_schema (this e2)) with s in *.
      change (_rowset_writer (this e2)) with w' in *.
      assert (Hext : (λ b, finalize_cells s (read_row p1 b)) <$> rest =
                     (λ b, finalize_cells s (read_row p b)) <$> rest).
      { apply list_fmap_ext. intros i b Hb. f_equal.
        apply read_write_row_ne. intros ->.
        apply Hnotin. by eapply list_elem_of_lookup_2. }
      rewrite Hext in *. clear Hext.
      split; [done|]. split; [done|]. split; [done|]. split.
      * intros b Hb. apply not_elem_of_cons in Hb as [Hne Hb].
        rewrite Hother by done. by apply read_write_row_ne.
      * intros Hok b [->|Hb]%elem_of_cons.
        -- rewrite Hother by done. apply read_write_row.
        -- rewrite Hfin by done. f_equal. apply read_write_row_ne.
           by intros ->.
Qed.

(** What [flush] makes of the writer and of the records: the status and
    the writer are those of handing over the finalized cells and then,
    without a refusal, of the writer's own flush. *)
Lemma ref_flush_state (e : REnv) :
  NoDup (table_entries (_skip_list (this e))) →
  let p := _mem_pool (this e) in
  let s := _schema (this e) in
  let rows := table_entries (_skip_list (this e)) in
  let r := hand_over add_row ((λ a, finalize_cells s (read_row p a)) <$> rows)
             (_rowset_writer (this e)) in
  let e' := (flush (C:=Ref) e).2 in
  if not_ok r.1 then
    (flush (C:=Ref) e).1 = r.1 ∧ _rowset_writer (this e') = r.2
  else
    (flush (C:=Ref) e).1 = (seal r.2).1 ∧
    _rowset_writer (this e') = (seal r.2).2 ∧
    ∀ a, a ∈ rows →
         read_row (_mem_pool (this e')) a = finalize_cells s (read_row p a).
Proof.
  intros Hnodup p s rows r e'. subst e'.
  destruct (ref_flush_rows rows e Hnodup) as (Hst & Hw & _ & _ & Hfin).
  fold p s r in Hst, Hw, Hfin.
  unfold flush, mbind, M_bind, member, SeekToFirst. cbn [fst snd].
  change (Table_entries (_skip_list (this e))) with rows.
  destruct (flush_rows (C:=Ref) rows e) as [st e1]. cbn [fst snd] in *.
  subst st. destruct (not_ok r.1) eqn:Hr; [done|].
  apply not_ok_false in Hr. specialize (Hfin Hr).
  rewrite rowset_writer_flush_run. cbv zeta.
  change (writer_flush (_rowset_writer (this e1)))
    with (seal (_rowset_writer (this e1))).
  rewrite Hw. destruct (seal r.2) as [st' w'']. cbn [fst snd].
  destruct (not_ok st') eqn:Hst'.
  - unfold mret, M_ret. cbn [fst snd]. by repeat split.
  - apply not_ok_false in Hst'. subst st'.
    unfold mret, M_ret, metrics_increment. cbn [fst snd]. by repeat split.
Qed.

(** C1: [flush] on an open memtable walks the entries of the index, which
    are in ascending key order and distinct, from the first on.  For each
    one it calls finalization and then, next, [add_row] on that same
    record, so each record handed over was finalized once, just before;
    the records handed over are the entries in their order, as far as the
    writer accepts them.  When the writer accepts them all, every entry
    was handed over and the writer's [flush] is called once, as the last
    call, and its status is the status of [flush].  On the writer itself:
    it ends as it is after being handed, one by one and up to the first
    refusal, the finalized cells of the records as they were when [flush]
    began, in that order, and then, without a refusal, after its own
    flush, once; every entry then holds its finalized record. *)
Theorem flush_hands_records_in_key_order (e : REnv) :
  Open e →
  (0 < ref_schema_size (_schema (this e)))%N →
  let rows := table_entries (_skip_list (this e)) in
  let cs := new_calls e (flush e).2 in
  let p := _mem_pool (this e) in
  let s := _schema (this e) in
  let handed := hand_over add_row
                  ((λ a, finalize_cells s (read_row p a)) <$> rows)
                  (_rowset_writer (this e)) in
  let e' := (flush (C:=Ref) e).2 in
  StronglySorted (row_le (_schema (this e)) (_mem_pool (this e))) rows ∧
  NoDup rows ∧
  (∃ (done : list (addr * OLAPStatus)) (after : list Call),
     cs = drain_calls done ++ after ∧
     done.*1 `prefix_of` rows ∧
     (Forall accepted done →
      done.*1 = rows ∧ after = [CallWriterFlush (flush e).1]) ∧
     (¬ Forall accepted done →
      after = [] ∧ (flush e).1 ≠ OLAP_SUCCESS)) ∧
  (if not_ok handed.1 then
     (flush (C:=Ref) e).1 = handed.1 ∧ _rowset_writer (this e') = handed.2
   else
     (flush (C:=Ref) e).1 = (seal handed.2).1 ∧
     _rowset_writer (this e') = (seal handed.2).2 ∧
     ∀ a, a ∈ rows →
          read_row (_mem_pool (this e')) a = finalize_cells s (read_row p a)).
Proof.
  intros Hopen Hpos rows cs p s handed e'. subst cs.
  destruct (Open_well_formed e Hopen Hpos) as (_ & Hsorted & Hnodup & _).
  split; [by apply Sorted_StronglySorted; [apply _|]|]. split; [done|].
  split; [|exact (ref_flush_state e Hnodup)].
  destruct (flush_new_calls (C:=Ref) e) as (done & after & Hrun & ->).
  exists done, after. split; [done|].
  change (Table_entries (_skip_list (this e))) with rows in Hrun.
  remember (flush e).1 as ret eqn:Hret. clear Hret.
  destruct Hrun as [front r st rest Hfront Hbad Hrows
                   |done st Hdone Hrows Hbad
                   |done Hdone Hrows].
  - split; [|split].
    + rewrite Hrows, fmap_app. cbn [fmap list_fmap fst].
      apply prefix_app, prefix_cons, prefix_nil.
    + intros [_ Hlast]%Forall_app. by inversion Hlast.
    + done.
  - split; [by rewrite Hrows|]. by split.
  - split; [by rewrite Hrows|]. by split.
Qed.

(** The run of [insert] on a well-formed memtable, from what the index
    returned. *)
Lemma ref_insert_run (e : REnv) (tuple : RefTuple) :
  let m := this e in
  let buf := _tuple_buf m in
  let rows := table_entries (_skip_list m) in
  well_formed finalize_cells Writer add_row seal e →
  ∃ pool objs cs,
    pool_frame buf (_mem_pool m) pool ∧ Forall (consume_on buf) cs ∧
    let r := insert_or_locate (λ x, compare_at (_schema m) pool x buf)
               (bool_decide (_keys_type m = DUP_KEYS)) buf rows in
    (insert (C:=Ref) tuple e).2 =
    (if r.1
     then inserted (C:=Ref) pool objs buf (mkTable (_schema m) r.2)
            (cs ++ [CallInsert buf (_keys_type m) true]) e
     else inserted (C:=Ref) (ref_allocate (_schema_size m) pool).2 objs
            (next_free pool) (mkTable (_schema m) r.2)
            (cs ++ [CallInsert buf (_keys_type m) false;
                    CallAllocate (_schema_size m) (next_free pool)]) e).
Proof.
  intros m buf rows (Hschema & _).
  destruct (insert_spec (C:=Ref) (pool_frame buf) tuple e)
    as (pool & objs & cs & Hframe & Hcs & _ & Hrun).
  { intros. apply consume_pool_frame. }
  exists pool, objs, cs. split; [done|]. split; [done|].
  cbv zeta in Hrun. rewrite Hrun. clear Hrun. cbn [snd].
  cbn [Table_Insert RefCollaborators]. unfold ref_table_insert. cbn [fst snd].
  subst rows buf m. rewrite Hschema.
  by destruct (insert_or_locate _ _ _ _) as [[] rows'].
Qed.


(** C8: flushing a memtable into which nothing was inserted succeeds when
    the writer's [flush] succeeds, and the only call it makes is that
    [flush] of the writer: no [add_row] comes before it.  The writer is
    left as its own flush leaves it, and nothing else of the memtable
    moves. *)
Theorem flush_empty_memtable tablet_id (schema : RefSchema) slot_descs
    keys_type (writer : Writer) parent total us timer cs :
  (seal writer).1 = OLAP_SUCCESS →
  let e : REnv :=
    mkEnv (MemTable_new (C:=Ref) tablet_id schema slot_descs keys_type writer
             parent) total us timer cs in
  (flush e).1 = OLAP_SUCCESS ∧
  new_calls e (flush e).2 = [CallWriterFlush OLAP_SUCCESS] ∧
  add_row_calls (new_calls e (flush e).2) = [] ∧
  memtable_flush_total (flush e).2 = total + 1 ∧
  _rowset_writer (this (flush e).2) = (seal writer).2 ∧
  this (flush e).2 = set_rowset_writer (C:=Ref) (seal writer).2 (this e).
Proof.
  intros Hseal e.
  assert (Hrun : flush e =
    (OLAP_SUCCESS,
     mkEnv (set_rowset_writer (C:=Ref) (seal writer).2 (this e)) (total + 1)
       (us + Z.quot timer 1000) timer (cs ++ [CallWriterFlush OLAP_SUCCESS]))).
  { unfold flush, mbind, M_bind, member, SeekToFirst. cbn [fst snd].
    change (Table_entries (_skip_list (this e))) with (@nil addr).
    cbn [flush_rows]. unfold mret at 1, M_ret at 1.
    replace (not_ok OLAP_SUCCESS) with false by done.
    rewrite rowset_writer_flush_run. cbv zeta.
    change (writer_flush (_rowset_writer (this e))) with (seal writer).
    destruct (seal writer) as [st writer'] eqn:Hs. cbn [fst snd] in *.
    by subst st. }
  rewrite Hrun. cbn [fst snd memtable_flush_total this].
  rewrite (new_calls_app e _ [CallWriterFlush OLAP_SUCCESS]) by done.
  done.
Qed.

(** C10: the constructor allocates the scratch buffer from the fresh
    pool, of the schema's row footprint, so that tracked consumption is
    at least the row footprint before any insert; with a schema of at
    least one column it is not zero. *)
Theorem memory_usage_after_construction tablet_id (schema : RefSchema)
    slot_descs keys_type (writer : Writer) parent total us timer cs :
  columns schema ≠ [] →
  let e : REnv :=
    mkEnv (MemTable_new (C:=Ref) tablet_id schema slot_descs keys_type writer
             parent) total us timer cs in
  let fresh := ref_pool_new (ref_tracker_new (-1) "memtable" parent) in
  _tuple_buf (this e) = (ref_allocate (ref_schema_size schema) fresh).1 ∧
  (ref_schema_size schema ≤ (memory_usage e).1)%N ∧
  (0 < (memory_usage e).1)%N.
Proof.
  intros Hcols e fresh. apply ref_schema_size_pos in Hcols.
  split; [done|].
  change (memory_usage e).1 with (0 + ref_schema_size schema)%N.
  lia.
Qed.

End ReferenceFacts.


(** * Part III: the theorems at work on the example table *)

(** The key (3) of the third tuple is resident when it arrives. *)
Example example_filled_agg :
  resident_rows (example_filled AGG_KEYS accepting_writer) =
  [[None; Some 1]; [Some 1; Some 20]; [Some 3; Some 10]].
Proof. vm_compute. reflexivity. Qed.

Example example_filled_dup :
  resident_rows (example_filled DUP_KEYS accepting_writer) =
  [[None; Some 1]; [Some 1; Some 20]; [Some 3; Some 10]; [Some 3; Some 5]].
Proof. vm_compute. reflexivity. Qed.

Example example_flush_written :
  written (_rowset_writer
             (this (flush (example_filled DUP_KEYS accepting_writer)).2)) =
  [[None; Some 1]; [Some 1; Some 20]; [Some 3; Some 10]; [Some 3; Some 5]].
Proof. vm_compute. reflexivity. Qed.

Example example_flush_calls :
  new_calls (example_filled DUP_KEYS accepting_writer)
    (flush (example_filled DUP_KEYS accepting_writer)).2 =
  [CallFinalize 55%N; CallAddRow 55%N 0; CallFinalize 19%N; CallAddRow 19%N 0;
   CallFinalize 1%N; CallAddRow 1%N 0; CallFinalize 37%N; CallAddRow 37%N 0;
   CallWriterFlush 0].
Proof. vm_compute. reflexivity. Qed.

(** C1 at work: the duplicate-key example table, flushed. *)
Lemma flush_hands_records_in_key_order_witness :
  let e := example_filled DUP_KEYS accepting_writer in
  let rows := table_entries (_skip_list (this e)) in
  let cs := new_calls e (flush e).2 in
  let p := _mem_pool (this e) in
  let s := _schema (this e) in
  let handed := hand_over recording_add_row ((λ a, read_row p a) <$> rows)
                  (_rowset_writer (this e)) in
  let e' := (flush (C:=Recording) e).2 in
  StronglySorted (row_le (_schema (this e)) (_mem_pool (this e))) rows ∧
  NoDup rows ∧
  (∃ (done : list (addr * OLAPStatus)) (after : list Call),
     cs = drain_calls done ++ after ∧
     done.*1 `prefix_of` rows ∧
     (Forall accepted done →
      done.*1 = rows ∧ after = [CallWriterFlush (flush e).1]) ∧
     (¬ Forall accepted done →
      after = [] ∧ (flush e).1 ≠ OLAP_SUCCESS)) ∧
  (if not_ok handed.1 then
     (flush (C:=Recording) e).1 = handed.1 ∧
     _rowset_writer (this e') = handed.2
   else
     (flush (C:=Recording) e).1 = (recording_seal handed.2).1 ∧
     _rowset_writer (this e') = (recording_seal handed.2).2 ∧
     ∀ a, a ∈ rows → read_row (_mem_pool (this e')) a = read_row p a).
Proof.
  assert (Hopen : Open (example_filled DUP_KEYS accepting_writer))
    by (unfold example_filled, example_memtable; apply Open_inserts, Open_new).
  assert (Hpos : (0 < ref_schema_size
                    (_schema (this (example_filled DUP_KEYS accepting_writer))))%N)
    by (vm_compute; reflexivity).
  exact (flush_hands_records_in_key_order (λ _ r, r) RecordingWriter
           recording_add_row recording_seal _ Hopen Hpos).
Defined.

(** C2 at work: the writer refuses the second record. *)
Lemma flush_stops_at_refused_add_row_witness :
  let e := example_filled DUP_KEYS (refusing_writer 1) in
  let cs := new_calls e (flush e).2 in
  let rows := Table_entries (_skip_list (this e)) in
  (flush e).1 = -5 ∧
  rows !! 1%nat = Some 19%N ∧
  (add_row_calls cs).*1 = take 2 rows ∧
  writer_flush_calls cs = [].
Proof.
  assert (Hcall :
    add_row_calls
      (new_calls (example_filled DUP_KEYS (refusing_writer 1))
         (flush (example_filled DUP_KEYS (refusing_writer 1))).2) !! 1%nat =
    Some (19%N, -5)) by (vm_compute; reflexivity).
  assert (Hbad : -5 ≠ OLAP_SUCCESS) by done.
  exact (flush_stops_at_refused_add_row (C:=Recording) _ 1 19%N (-5) Hcall Hbad).
Defined.

(** C3 at work: the first tuple into the new example memtable. *)
Lemma insert_scratch_buffer_witness :
  let e := example_memtable AGG_KEYS accepting_writer (-1) in
  let tuple : RefTuple := [Some 3; Some 10] in
  let m := this e in
  let e1 := (consume_slots (C:=Recording) tuple (_tuple_buf m) 0
               (_slot_descs m) e).2 in
  let r := Table_Insert (_tuple_buf m) (_keys_type m) (_skip_list (this e1))
             (_mem_pool (this e1)) in
  let overwritten := r.1.1 in
  let e' := (insert (C:=Recording) tuple e).2 in
  let cs' := new_calls e e' in
  let size := schema_size (_schema m) in
  _skip_list (this e') = r.1.2 ∧
  ∃ cs : list Call,
    Forall (consume_on (_tuple_buf m)) cs ∧
    if overwritten then
      cs' = cs ++ [CallInsert (_tuple_buf m) (_keys_type m) true] ∧
      allocate_calls cs' = [] ∧
      _tuple_buf (this e') = _tuple_buf m ∧
      _mem_pool (this e') = r.2
    else
      cs' = cs ++ [CallInsert (_tuple_buf m) (_keys_type m) false;
                   CallAllocate size (_tuple_buf (this e'))] ∧
      allocate_calls cs' = [(size, _tuple_buf (this e'))] ∧
      _tuple_buf (this e') = (allocate size r.2).1 ∧
      _mem_pool (this e') = (allocate size r.2).2.
Proof.
  assert (Hopen : Open (example_memtable AGG_KEYS accepting_writer (-1)))
    by (unfold example_memtable; apply Open_new).
  exact (insert_scratch_buffer (C:=Recording) _ [Some 3; Some 10] Hopen).
Defined.

(** The first insert commits buffer 1 and takes the 18 bytes at 19; a
    second tuple of the same key leaves buffer 19 in place. *)
Example example_scratch_buffers :
  _tuple_buf (this (example_memtable AGG_KEYS accepting_writer (-1))) = 1%N ∧
  _tuple_buf (this (inserts (C:=Recording) [[Some 3; Some 10]]
                      (example_memtable AGG_KEYS accepting_writer (-1))).2)
    = 19%N ∧
  _tuple_buf (this (inserts (C:=Recording) [[Some 3; Some 10]; [Some 3; Some 5]]
                      (example_memtable AGG_KEYS accepting_writer (-1))).2)
    = 19%N ∧
  memory_usage (C:=Recording)
    (inserts (C:=Recording) [[Some 3; Some 10]; [Some 3; Some 5]]
       (example_memtable AGG_KEYS accepting_writer (-1))).2
  = (36%N,
     (inserts (C:=Recording) [[Some 3; Some 10]; [Some 3; Some 5]]
        (example_memtable AGG_KEYS accepting_writer (-1))).2).
Proof. repeat split; vm_compute; reflexivity. Qed.

(** C6 at work: consumption before and after the example tuples. *)
Lemma memory_usage_monotone_witness :
  let e := example_memtable AGG_KEYS accepting_writer (-1) in
  memory_usage e = (consumption (mem_tracker (_mem_pool (this e))), e) ∧
  ((memory_usage e).1
   ≤ (memory_usage (inserts (C:=Recording) example_tuples e).2).1)%N.
Proof.
  exact (memory_usage_monotone (C:=Recording)
           (ref_arena_grows (λ _ r, r) RecordingWriter recording_add_row
              recording_seal)
           (example_memtable AGG_KEYS accepting_writer (-1)) example_tuples).
Defined.

Example memory_usage_example :
  (memory_usage (example_memtable AGG_KEYS accepting_writer (-1))).1 = 18%N ∧
  (memory_usage (example_filled AGG_KEYS accepting_writer)).1 = 72%N.
Proof. split; vm_compute; reflexivity. Qed.


(** C8 at work: the example memtable, flushed at once. *)
Lemma flush_empty_memtable_witness :
  let e := example_memtable UNIQUE_KEYS accepting_writer (-1) in
  (flush e).1 = OLAP_SUCCESS ∧
  new_calls e (flush e).2 = [CallWriterFlush OLAP_SUCCESS] ∧
  add_row_calls (new_calls e (flush e).2) = [] ∧
  memtable_flush_total (flush e).2 = 0 + 1 ∧
  _rowset_writer (this (flush e).2) = (recording_seal accepting_writer).2 ∧
  this (flush e).2 =
    set_rowset_writer (C:=Recording) (recording_seal accepting_writer).2 (this e).
Proof.
  assert (Hseal : (recording_seal accepting_writer).1 = OLAP_SUCCESS)
    by reflexivity.
  exact (flush_empty_memtable (λ _ r, r) RecordingWriter recording_add_row
           recording_seal 7 example_schema example_slots UNIQUE_KEYS
           accepting_writer (Tracker (-1) "tablet" 0 NoTracker) 0 0 5000 []
           Hseal).
Defined.

(** The writer was sealed once and holds no record. *)
Example example_empty_flush_writer :
  _rowset_writer
    (this (flush (example_memtable UNIQUE_KEYS accepting_writer (-1))).2) =
  mkWriter [] 1 None (-1) 0.
Proof. vm_compute. reflexivity. Qed.

(** C10 at work: the example memtable reports the 18 bytes of its row
    footprint before any insert. *)
Lemma memory_usage_after_construction_witness :
  let e := example_memtable AGG_KEYS accepting_writer (-1) in
  let fresh :=
    ref_pool_new (ref_tracker_new (-1) "memtable"
                    (Tracker (-1) "tablet" 0 NoTracker)) in
  _tuple_buf (this e) = (ref_allocate (ref_schema_size example_schema) fresh).1 ∧
  (ref_schema_size example_schema ≤ (memory_usage e).1)%N ∧
  (0 < (memory_usage e).1)%N.
Proof.
  assert (Hcols : columns example_schema ≠ []) by done.
  exact (memory_usage_after_construction (λ _ r, r) RecordingWriter
           recording_add_row recording_seal 7 example_schema example_slots
           AGG_KEYS accepting_writer (Tracker (-1) "tablet" 0 NoTracker)
           0 0 5000 [] Hcols).
Defined.

(** ** Where the code departs from the design document *)


(** C5 as stated fails: the memtable applies no aggregation policy, with
    whatever index.  The same two inserts, (1, 10) then (1, 20), on the
    aggregate-key example table with a summed value column, are run over
    the index that only locates and over the index that merges in its
    [Insert].  [insert] makes the same calls in both runs, the last of
    them the [Insert] that came back with the flag true.  Over the index
    that only locates the resident record is still (1, 10), where the
    aggregation policy gives (1, 30): the memtable merged nothing.  Over
    the merging index it is (1, 30), and it was so in the pool [Insert]
    returned, which is the pool the memtable keeps.  [flush] hands the
    writer (1, 10) in the first run and (1, 30) in the second. *)
Lemma insert_applies_no_aggregation :
  let tuples : list RefTuple := [[Some 1; Some 10]; [Some 1; Some 20]] in
  let locating :=
    (inserts (C:=Recording) tuples
       (example_memtable AGG_KEYS accepting_writer (-1))).2 in
  let merging := (inserts (C:=Merging) tuples merging_memtable).2 in
  calls locating = calls merging ∧
  last (calls locating) = Some (CallInsert 19%N AGG_KEYS true) ∧
  resident_rows locating = [[Some 1; Some 10]] ∧
  merging_resident_rows merging = [[Some 1; Some 30]] ∧
  agg_update_row AGG_KEYS example_schema [Some 1; Some 10] [Some 1; Some 20]
    = [Some 1; Some 30] ∧
  (let e1 := (insert (C:=Merging) [Some 1; Some 10] merging_memtable).2 in
   let e2 := (consume_slots (C:=Merging) [Some 1; Some 20] 19%N 0
                example_slots e1).2 in
   let r := merging_table_insert 19%N AGG_KEYS (_skip_list (this e2))
              (_mem_pool (this e2)) in
   _tuple_buf (this e1) = 19%N ∧ r.1.1 = true ∧
   read_row (_mem_pool (this e2)) 1%N = [Some 1; Some 10] ∧
   read_row r.2 1%N = [Some 1; Some 30] ∧
   _mem_pool (this merging) = r.2) ∧
  written (_rowset_writer (this (flush locating).2)) = [[Some 1; Some 10]] ∧
  written (_rowset_writer (this (flush merging).2)) = [[Some 1; Some 30]].
Proof.
  cbv zeta.
  repeat match goal with |- _ ∧ _ => split end; vm_compute; reflexivity.
Qed.

(** * Part IV: further properties of the code, for any collaborators *)

Section FurtherFacts.
Context `{C : Collaborators}.

Lemma finalize_calls_app cs1 cs2 :
  finalize_calls (cs1 ++ cs2) = finalize_calls cs1 ++ finalize_calls cs2.
Proof. apply omap_app. Qed.

Lemma insert_calls_app cs1 cs2 :
  insert_calls (cs1 ++ cs2) = insert_calls cs1 ++ insert_calls cs2.
Proof. apply omap_app. Qed.

Lemma finalize_calls_drain done : finalize_calls (drain_calls done) = done.*1.
Proof.
  induction done as [|[row st] done IH]; [done|].
  by rewrite drain_calls_cons, finalize_calls_app, IH.
Qed.

Lemma drain_calls_is_drain done :
  Forall (λ c, is_drain_call c = true) (drain_calls done).
Proof.
  induction done as [|[row st] done IH]; [constructor|].
  rewrite drain_calls_cons. apply Forall_app. split; [|done].
  by repeat constructor.
Qed.

Lemma all_accepted_fst rows : (all_accepted rows).*1 = rows.
Proof.
  unfold all_accepted. rewrite <-list_fmap_compose.
  induction rows as [|r rows IH]; [done|]. cbn. by rewrite IH.
Qed.

Lemma accepted_all_accepted done :
  Forall accepted done → done = all_accepted done.*1.
Proof.
  induction 1 as [|[row st] done Hacc _ IH]; [done|].
  unfold accepted in Hacc. cbn in Hacc. subst st.
  rewrite fmap_cons. unfold all_accepted in *. rewrite fmap_cons.
  by rewrite <-IH.
Qed.

(** The three ways [flush] ends, with the environment it leaves. *)
Lemma flush_outcome e :
  let rows := Table_entries (_skip_list (this e)) in
  ∃ done pool writer,
    (∃ front row rest,
       (flush e).1 ≠ OLAP_SUCCESS ∧ Forall accepted front ∧
       done = front ++ [(row, (flush e).1)] ∧
       rows = front.*1 ++ row :: rest ∧
       (flush e).2 = drained pool writer (drain_calls done) e)
    ∨ (Forall accepted done ∧ done.*1 = rows ∧
       (flush e).1 ≠ OLAP_SUCCESS ∧
       (flush e).2 =
         drained pool writer
           (drain_calls done ++ [CallWriterFlush (flush e).1]) e)
    ∨ (Forall accepted done ∧ done.*1 = rows ∧
       (flush e).1 = OLAP_SUCCESS ∧
       (flush e).2 =
         (metrics_increment
            (drained pool writer
               (drain_calls done ++ [CallWriterFlush OLAP_SUCCESS]) e)).2).
Proof.
  intros rows. subst rows.
  unfold flush, mbind, M_bind, member, SeekToFirst. cbn [fst snd].
  destruct (flush_rows_spec (Table_entries (_skip_list (this e))) e)
    as (done & pool & writer & Henv & Hcases).
  destruct (flush_rows _ e) as [st e1]. cbn [fst snd] in *. subst e1.
  destruct Hcases as [(-> & Hacc & Hrows)|(front & r & tl & Hbad & Hacc & -> & Hit)].
  - replace (not_ok OLAP_SUCCESS) with false by done.
    rewrite rowset_writer_flush_run. cbv zeta.
    set (e1 := drained pool writer _ e).
    destruct (writer_flush (_rowset_writer (this e1))) as [st w'] eqn:Hw.
    cbn [fst snd]. exists done, pool, w'. destruct (not_ok st) eqn:Hst.
    + apply not_ok_true in Hst. right. left.
      repeat split; try done.
      unfold mret, M_ret, e1, drained. env_simpl. by rewrite <-app_assoc.
    + apply not_ok_false in Hst. subst st. right. right.
      repeat split; try done.
      unfold mret, M_ret, metrics_increment, e1, drained. env_simpl.
      by rewrite <-app_assoc.
  - apply not_ok_true in Hbad as Hbad'. rewrite Hbad'.
    exists (front ++ [(r, st)]), pool, writer. left.
    exists front, r, tl. by repeat split.
Qed.

Lemma drain_status_cons row rest :
  drain_status ((row, OLAP_SUCCESS) :: rest) = drain_status rest.
Proof. by destruct rest. Qed.

(** The loop of [flush] is [drain] on the pool and the writer. *)
Lemma flush_rows_drain it e :
  let d := drain (_schema (this e)) it (_mem_pool (this e))
             (_rowset_writer (this e)) in
  flush_rows it e =
  (drain_status d.1.1, drained d.1.2 d.2 (drain_calls d.1.1) e).
Proof.
  revert e. induction it as [|row rest IH]; intros e.
  - cbn. unfold mret, M_ret, drained. destruct e as [[] ? ? ? ?]. cbn.
    by rewrite app_nil_r.
  - cbn [flush_rows drain]. unfold mbind, M_bind.
    rewrite finalize_row_run. set (e1 := with_call (CallFinalize row) _).
    rewrite rowset_writer_add_row_run. cbv zeta.
    change (_schema (this e1)) with (_schema (this e)).
    change (_mem_pool (this e1))
      with (agg_finalize_row (_schema (this e)) row (_mem_pool (this e))).
    change (_rowset_writer (this e1)) with (_rowset_writer (this e)).
    destruct (writer_add_row _ row _ _) as [st w'].
    cbn [fst snd]. destruct (not_ok st) eqn:Hst.
    + unfold mret, M_ret. f_equal. unfold drained, e1. env_simpl.
      by rewrite <-app_assoc.
    + apply not_ok_false in Hst. subst st.
      set (e2 := with_call _ (with_this (set_rowset_writer w') _)).
      rewrite (IH e2). cbv zeta.
      change (_schema (this e2)) with (_schema (this e)).
      change (_mem_pool (this e2))
        with (agg_finalize_row (_schema (this e)) row (_mem_pool (this e))).
      change (_rowset_writer (this e2)) with w'.
      cbn [fst snd]. rewrite drain_status_cons. f_equal.
      unfold drained, e2, e1. env_simpl. rewrite drain_calls_cons.
      by rewrite <-!app_assoc.
Qed.

(** What [drain] hands over: every record with success, or the records up
    to one the writer refused, with the status of the refusal last. *)
Lemma drain_done schema rows pool writer :
  let d := drain schema rows pool writer in
  if not_ok (drain_status d.1.1) then
    ∃ front row rest,
      d.1.1 = all_accepted front ++ [(row, drain_status d.1.1)] ∧
      rows = front ++ row :: rest
  else d.1.1 = all_accepted rows.
Proof.
  revert pool writer. induction rows as [|row rest IH]; intros pool writer.
  - done.
  - cbn [drain]. cbv zeta.
    destruct (writer_add_row _ row _ _) as [st w']. cbn [fst snd].
    destruct (not_ok st) eqn:Hst; cbn [fst snd].
    + unfold drain_status. cbn. rewrite Hst. by exists [], row, rest.
    + apply not_ok_false in Hst. subst st. rewrite drain_status_cons.
      specialize (IH (agg_finalize_row schema row pool) w'). cbv zeta in IH.
      destruct (not_ok (drain_status _)).
      * destruct IH as (front & r & tl & Hd & Hrows).
        exists (row :: front), r, tl. split; [|by rewrite Hrows].
        change (all_accepted (row :: front))
          with ((row, OLAP_SUCCESS) :: all_accepted front).
        cbn [app]. by f_equal.
      * by rewrite IH.
Qed.

(** [flush] in full, from [drain] and the writer's own flush. *)
Lemma flush_drain e :
  let d := drain (_schema (this e)) (Table_entries (_skip_list (this e)))
             (_mem_pool (this e)) (_rowset_writer (this e)) in
  let w := writer_flush d.2 in
  flush e =
  if not_ok (drain_status d.1.1) then
    (drain_status d.1.1, drained d.1.2 d.2 (drain_calls d.1.1) e)
  else if not_ok w.1 then
    (w.1, drained d.1.2 w.2 (drain_calls d.1.1 ++ [CallWriterFlush w.1]) e)
  else
    (OLAP_SUCCESS,
     (metrics_increment
        (drained d.1.2 w.2
           (drain_calls d.1.1 ++ [CallWriterFlush OLAP_SUCCESS]) e)).2).
Proof.
  intros d w. subst w d.
  unfold flush, mbind, M_bind, member, SeekToFirst. cbn [fst snd].
  rewrite flush_rows_drain. cbv zeta.
  set (d := drain _ _ _ _).
  destruct (not_ok (drain_status d.1.1)); [done|].
  rewrite rowset_writer_flush_run. cbv zeta.
  change (_rowset_writer (this (drained d.1.2 d.2 (drain_calls d.1.1) e)))
    with d.2.
  destruct (writer_flush d.2) as [st w']. cbn [fst snd].
  destruct (not_ok st) eqn:Hst.
  - unfold mret, M_ret. f_equal. unfold drained. env_simpl.
    by rewrite <-app_assoc.
  - apply not_ok_false in Hst. subst st.
    unfold mret, M_ret, metrics_increment. cbn [fst snd]. f_equal.
    unfold drained. env_simpl. by rewrite <-app_assoc.
Qed.

(** A [flush] that returns success, on the state. *)
Lemma flush_success_state e :
  (flush e).1 = OLAP_SUCCESS →
  let rows := Table_entries (_skip_list (this e)) in
  let d := drain (_schema (this e)) rows (_mem_pool (this e))
             (_rowset_writer (this e)) in
  d.1.1 = all_accepted rows ∧
  (writer_flush d.2).1 = OLAP_SUCCESS ∧
  (flush e).2 =
    (metrics_increment
       (drained d.1.2 (writer_flush d.2).2 (success_calls rows) e)).2.
Proof.
  intros Hok rows d. rewrite flush_drain in Hok |- *. cbv zeta in Hok |- *.
  fold rows in Hok |- *. fold d in Hok |- *.
  pose proof (drain_done (_schema (this e)) rows (_mem_pool (this e))
                (_rowset_writer (this e))) as Hd.
  cbv zeta in Hd. fold d in Hd.
  destruct (not_ok (drain_status d.1.1)) eqn:Hst.
  { apply not_ok_true in Hst. by cbn in Hok. }
  destruct (not_ok (writer_flush d.2).1) eqn:Hw.
  { apply not_ok_true in Hw. by cbn in Hok. }
  apply not_ok_false in Hw. cbn [snd]. unfold success_calls. by rewrite Hd.
Qed.

(** ** [flush] *)

Lemma flush_only_drains_frame e :
  _skip_list (this (flush e).2) = _skip_list (this e) ∧
  same_configuration (this e) (this (flush e).2).
Proof.
  destruct (flush_run e) as (done & after & pool & writer & _ & _ & ->).
  done.
Qed.

(** X1: [flush] calls nothing but finalization and the writer, and it
    finalizes exactly the records it hands to the writer, in the same
    order: after a refusal the records behind it are neither handed over
    nor finalized.  It changes no member other than the pool and the
    writer: the index, the scratch buffer and the configuration stay. *)
Theorem flush_only_drains (e : Env) :
  let cs := new_calls e (flush e).2 in
  let m' := this (flush e).2 in
  Forall (λ c, is_drain_call c = true) cs ∧
  finalize_calls cs = (add_row_calls cs).*1 ∧
  allocate_calls cs = [] ∧
  insert_calls cs = [] ∧
  same_configuration (this e) m' ∧
  _skip_list m' = _skip_list (this e) ∧
  _tuple_buf m' = _tuple_buf (this e) ∧
  _agg_object_pool m' = _agg_object_pool (this e).
Proof.
  intros cs m'. subst cs m'.
  destruct (flush_run e) as (done & after & pool & writer & Hrun & Hcalls & ->).
  rewrite (new_calls_app _ _ _ Hcalls).
  rewrite finalize_calls_app, add_row_calls_app, allocate_calls_app,
    insert_calls_app, finalize_calls_drain, add_row_calls_drain,
    allocate_calls_drain.
  assert (Hafter : after = [] ∨ ∃ st, after = [CallWriterFlush st]).
  { destruct Hrun; eauto. }
  assert (Hins : insert_calls (drain_calls done) = []).
  { clear. induction done as [|[row st] done IH]; [done|].
    by rewrite drain_calls_cons, insert_calls_app, IH. }
  rewrite Hins.
  split; [|by destruct Hafter as [->|[st ->]]; rewrite ?app_nil_r].
  apply Forall_app. split; [apply drain_calls_is_drain|].
  destruct Hafter as [->|[st ->]]; by repeat constructor.
Qed.

(** X2: when [flush] returns success, every entry of the index was
    finalized and then accepted by the writer, in iteration order, and
    the writer's flush succeeded: the pool is the one that finalizing
    every entry in turn leaves, the writer is the one that accepted each
    finalized record in turn and was then flushed, and nothing else of
    the memtable moved.  The calls are those of such a run, the writer's
    flush last, and the two counters went up by one flush and by the
    measured time in microseconds, rounded towards zero. *)
Theorem flush_success (e : Env) :
  (flush e).1 = OLAP_SUCCESS →
  let rows := Table_entries (_skip_list (this e)) in
  let d := drain (_schema (this e)) rows (_mem_pool (this e))
             (_rowset_writer (this e)) in
  let e' := (flush e).2 in
  d.1.1 = all_accepted rows ∧
  (writer_flush d.2).1 = OLAP_SUCCESS ∧
  this e' = set_rowset_writer (writer_flush d.2).2 (set_mem_pool d.1.2 (this e)) ∧
  new_calls e e' = success_calls rows ∧
  memtable_flush_total e' = memtable_flush_total e + 1 ∧
  memtable_flush_duration_us e' =
    memtable_flush_duration_us e + Z.quot (timer_ns e) 1000 ∧
  timer_ns e' = timer_ns e.
Proof.
  intros Hok rows d e'. subst e'.
  destruct (flush_success_state e Hok) as (Hd & Hw & ->).
  fold rows. fold d. split; [done|]. split; [done|]. split; [done|].
  split; [|done]. by apply new_calls_app.
Qed.

(** X3: when [flush] returns a failure, the two counters are left as they
    were: a flush that fails is not counted, and its time is not added. *)
Theorem flush_failure_not_counted (e : Env) :
  (flush e).1 ≠ OLAP_SUCCESS →
  same_metrics e (flush e).2 ∧
  new_calls e (flush e).2 ≠ success_calls (Table_entries (_skip_list (this e))).
Proof.
  intros Hbad.
  destruct (flush_outcome e) as (done & pool & writer & Hcases).
  destruct Hcases as [(front & row & rest & _ & _ & Hdone & _ & Henv)
                     |[(_ & _ & _ & Henv)|(_ & _ & Hok & _)]];
    [| |done].
  - rewrite Henv. split; [done|].
    rewrite (new_calls_app e _ (drain_calls done)) by done.
    intros Heq. apply (f_equal writer_flush_calls) in Heq.
    unfold success_calls in Heq.
    by rewrite writer_flush_calls_app, !writer_flush_calls_drain in Heq.
  - rewrite Henv. split; [done|].
    rewrite (new_calls_app e _
               (drain_calls done ++ [CallWriterFlush (flush e).1])) by done.
    intros Heq. apply (f_equal writer_flush_calls) in Heq.
    unfold success_calls in Heq.
    rewrite !writer_flush_calls_app, !writer_flush_calls_drain in Heq.
    cbn in Heq. congruence.
Qed.

(** X4: the writer is asked to flush only after it has accepted every
    entry of the index.  [flush] leaves the pool as finalizing the records
    handed over left it, and the [add_row] calls it made are those
    records with the status of each.  If one was refused, [flush] returns
    the status of the refusal and the writer is left as the refusing
    [add_row] left it: its flush is not called.  Otherwise every entry
    was handed over with success, the writer is the one that accepted
    them all and was then flushed, once and as the last call, and the
    status of that flush is what [flush] returns. *)
Theorem writer_flush_after_all_accepted (e : Env) :
  let rows := Table_entries (_skip_list (this e)) in
  let d := drain (_schema (this e)) rows (_mem_pool (this e))
             (_rowset_writer (this e)) in
  let w := writer_flush d.2 in
  let e' := (flush e).2 in
  let cs := new_calls e e' in
  _mem_pool (this e') = d.1.2 ∧
  add_row_calls cs = d.1.1 ∧
  if not_ok (drain_status d.1.1) then
    (flush e).1 = drain_status d.1.1 ∧
    _rowset_writer (this e') = d.2 ∧
    writer_flush_calls cs = []
  else
    d.1.1 = all_accepted rows ∧
    (flush e).1 = w.1 ∧
    _rowset_writer (this e') = w.2 ∧
    cs = drain_calls (all_accepted rows) ++ [CallWriterFlush w.1].
Proof.
  intros rows d w e' cs. subst cs e'.
  rewrite flush_drain. cbv zeta. fold rows. fold d. fold w.
  pose proof (drain_done (_schema (this e)) rows (_mem_pool (this e))
                (_rowset_writer (this e))) as Hd.
  cbv zeta in Hd. fold d in Hd.
  destruct (not_ok (drain_status d.1.1)) eqn:Hst.
  - cbn [fst snd].
    rewrite (new_calls_app e _ (drain_calls d.1.1)) by done.
    rewrite add_row_calls_drain, writer_flush_calls_drain. done.
  - assert (Hcs : ∀ e1 : Env,
              calls e1 = calls e ++ drain_calls d.1.1 ++ [CallWriterFlush w.1] →
              new_calls e e1 = drain_calls d.1.1 ++ [CallWriterFlush w.1])
      by (intros e1; apply new_calls_app).
    destruct (not_ok w.1) eqn:Hw; cbn [fst snd].
    + rewrite Hcs by done. rewrite add_row_calls_app, add_row_calls_drain.
      cbn. rewrite app_nil_r. by rewrite <-Hd.
    + apply not_ok_false in Hw. rewrite Hcs by (by rewrite Hw).
      rewrite add_row_calls_app, add_row_calls_drain.
      cbn. rewrite app_nil_r. by rewrite <-Hd.
Qed.

(** X5: [flush] on an index without entries makes one call, the flush of
    the writer, leaves the pool alone and returns the status of that
    call, success or not; the flush is counted exactly when it
    succeeded. *)
Theorem flush_no_entries (e : Env) :
  Table_entries (_skip_list (this e)) = [] →
  let r := writer_flush (_rowset_writer (this e)) in
  (flush e).1 = r.1 ∧
  new_calls e (flush e).2 = [CallWriterFlush r.1] ∧
  this (flush e).2 = set_rowset_writer r.2 (this e) ∧
  memtable_flush_total (flush e).2 =
    memtable_flush_total e + (if not_ok r.1 then 0 else 1).
Proof.
  intros Hrows r. subst r.
  assert (Hrun : flush e =
    let r := writer_flush (_rowset_writer (this e)) in
    let e1 := with_call (CallWriterFlush r.1)
                (with_this (set_rowset_writer r.2) e) in
    (r.1, if not_ok r.1 then e1 else (metrics_increment e1).2)).
  { unfold flush, mbind, M_bind, member, SeekToFirst. cbn [fst snd].
    rewrite Hrows. cbn [flush_rows]. unfold mret at 1, M_ret at 1.
    replace (not_ok OLAP_SUCCESS) with false by done.
    rewrite rowset_writer_flush_run. cbv zeta.
    destruct (writer_flush (_rowset_writer (this e))) as [st w'].
    cbn [fst snd]. destruct (not_ok st) eqn:Hst; [done|].
    apply not_ok_false in Hst. by subst st. }
  rewrite Hrun. clear Hrun. cbv zeta.
  destruct (writer_flush (_rowset_writer (this e))) as [st w'].
  cbn [fst snd]. destruct (not_ok st) eqn:Hst.
  - split; [done|]. split; [by apply new_calls_app|]. split; [done|].
    cbn. lia.
  - split; [done|]. split; [by apply new_calls_app|]. by split.
Qed.

(** X6: nothing marks a memtable as flushed.  A second [flush] (or a
    [close] after a [flush]) walks the same entries again: when both
    succeed, every record is finalized and handed to the writer a second
    time, on the pool and the writer the first run left.  The memtable
    ends with the pool finalized twice over and with the writer that
    accepted every entry, was flushed, accepted every entry again and was
    flushed again; the second run makes the calls of the first once more,
    and two flushes are counted. *)
Theorem flush_twice (e : Env) :
  let e1 := (flush e).2 in
  let e2 := (close e1).2 in
  let rows := Table_entries (_skip_list (this e)) in
  let d1 := drain (_schema (this e)) rows (_mem_pool (this e))
              (_rowset_writer (this e)) in
  let d2 := drain (_schema (this e)) rows d1.1.2 (writer_flush d1.2).2 in
  (flush e).1 = OLAP_SUCCESS →
  (close e1).1 = OLAP_SUCCESS →
  d1.1.1 = all_accepted rows ∧ d2.1.1 = all_accepted rows ∧
  this e2 =
    set_rowset_writer (writer_flush d2.2).2 (set_mem_pool d2.1.2 (this e)) ∧
  new_calls e1 e2 = new_calls e e1 ∧
  finalize_calls (new_calls e e2) = rows ++ rows ∧
  memtable_flush_total e2 = memtable_flush_total e + 2.
Proof.
  intros e1 e2 rows d1 d2 Hok1 Hok2. subst e2. unfold close in *.
  destruct (flush_success_state e Hok1) as (Hd1 & Hw1 & He1).
  destruct (flush_success_state e1 Hok2) as (Hd2 & Hw2 & He2).
  fold rows in Hd1, He1. fold d1 in Hd1, Hw1, He1. fold e1 in He1.
  assert (Hs : _schema (this e1) = _schema (this e)) by (by rewrite He1).
  assert (Hk : _skip_list (this e1) = _skip_list (this e)) by (by rewrite He1).
  assert (Hp : _mem_pool (this e1) = d1.1.2) by (by rewrite He1).
  assert (Hw : _rowset_writer (this e1) = (writer_flush d1.2).2)
    by (by rewrite He1).
  rewrite Hs, Hk, Hp, Hw in Hd2, Hw2, He2. fold rows in Hd2, He2.
  fold d2 in Hd2, Hw2, He2.
  assert (Hc1 : calls e1 = calls e ++ success_calls rows) by (by rewrite He1).
  assert (Hc2 : calls (flush e1).2 = calls e1 ++ success_calls rows)
    by (by rewrite He2).
  split; [done|]. split; [done|].
  split; [rewrite He2; cbn [snd metrics_increment this]; by rewrite He1|].
  split; [by rewrite (new_calls_app _ _ _ Hc1), (new_calls_app _ _ _ Hc2)|].
  split.
  - rewrite (new_calls_app e _ (success_calls rows ++ success_calls rows))
      by (by rewrite Hc2, Hc1, <-app_assoc).
    unfold success_calls.
    rewrite !finalize_calls_app, !finalize_calls_drain, !all_accepted_fst.
    cbn. by rewrite !app_nil_r.
  - rewrite He2. cbn [snd metrics_increment memtable_flush_total drained].
    rewrite He1. cbn. lia.
Qed.

(** ** [insert] *)

Lemma consume_slots_calls tuple row i slots e :
  calls (consume_slots tuple row i slots e).2 =
  calls e ++ consume_calls tuple row i slots.
Proof.
  revert i e. induction slots as [|slot rest IH]; intros i e.
  - cbn. by rewrite app_nil_r.
  - cbn [consume_slots]. unfold mbind, M_bind.
    rewrite schema_column_consume_run. cbv zeta.
    set (e1 := with_call _ _).
    cbn [fst snd].
    change (calls (consume_slots tuple row (S i) rest e1).2 =
            calls e ++ consume_calls tuple row i (slot :: rest)).
    rewrite (IH (S i) e1). unfold e1. env_simpl.
    unfold consume_calls. cbn [imap]. rewrite Nat.add_0_r, <-app_assoc.
    cbn [app]. do 2 f_equal. apply imap_ext. intros j x _. cbn.
    f_equal. lia.
Qed.

(** One [insert], in full: the calls it adds and the members it moves. *)
Lemma insert_step tuple e :
  let m := this e in
  let e' := (insert tuple e).2 in
  ∃ (ow : bool) (pool : MemPool) (objs : ObjectPool) (table : Table),
    e' = inserted pool objs (_tuple_buf (this e')) table
           (consume_calls tuple (_tuple_buf m) 0 (_slot_descs m) ++
            CallInsert (_tuple_buf m) (_keys_type m) ow ::
            (if ow then []
             else [CallAllocate (_schema_size m) (_tuple_buf (this e'))])) e ∧
    (ow = true → _tuple_buf (this e') = _tuple_buf m).
Proof.
  intros m e'. subst e' m.
  destruct (insert_spec_any tuple e) as (pool & objs & cs & Hcs & Hdec & Hrun).
  cbv zeta in Hrun, Hdec.
  assert (cs = consume_calls tuple (_tuple_buf (this e)) 0 (_slot_descs (this e)))
    as ->.
  { pose proof (consume_slots_calls tuple (_tuple_buf (this e)) 0
                  (_slot_descs (this e)) e) as Hc.
    rewrite Hdec in Hc. cbn [decoded calls] in Hc.
    by apply app_inv_head in Hc. }
  rewrite Hrun. clear Hrun Hdec.
  destruct (Table_Insert _ _ _ pool) as [[ow table'] pool'].
  cbn [fst snd]. destruct ow.
  - exists true, pool', objs, table'. by split.
  - eexists false, _, objs, table'. split; [|done].
    unfold inserted. env_simpl. reflexivity.
Qed.

Lemma consume_calls_not_drain tuple row i slots :
  Forall (λ c, is_drain_call c = false) (consume_calls tuple row i slots).
Proof.
  unfold consume_calls. apply Forall_forall. intros c Hc.
  apply elem_of_lookup_imap in Hc as (j & slot & -> & _). done.
Qed.

(** The decoding loop is [decoded_pools] on the two pools. *)
Lemma consume_slots_run tuple row i slots e :
  let d := decoded_pools (_schema (this e)) tuple row i slots
             (_mem_pool (this e)) (_agg_object_pool (this e)) in
  consume_slots tuple row i slots e =
  (tt, decoded d.1 d.2 (consume_calls tuple row i slots) e).
Proof.
  revert i e. induction slots as [|slot rest IH]; intros i e.
  - cbn. unfold mret, M_ret, decoded. destruct e as [[] ? ? ? ?]. cbn.
    by rewrite app_nil_r.
  - cbn [consume_slots decoded_pools]. unfold mbind, M_bind.
    rewrite schema_column_consume_run. cbv zeta.
    set (r := column_consume _ _ _ _ _ _ _).
    set (e1 := with_call _ _).
    change (consume_slots tuple row (S i) rest e1 =
            (tt, decoded
                   (decoded_pools (_schema (this e)) tuple row (S i) rest r.1 r.2).1
                   (decoded_pools (_schema (this e)) tuple row (S i) rest r.1 r.2).2
                   (consume_calls tuple row i (slot :: rest)) e)).
    rewrite (IH (S i) e1). cbv zeta. f_equal.
    unfold decoded, e1. env_simpl. f_equal.
    unfold consume_calls. cbn [imap]. rewrite Nat.add_0_r, <-app_assoc.
    cbn [app]. do 2 f_equal. apply imap_ext. intros j x _. cbn.
    f_equal. lia.
Qed.

(** One [insert], in full: the members are those of [insert_members],
    and the calls are the decoding calls, [Insert] and, for a new key,
    [allocate]. *)
Lemma insert_run tuple e :
  let m := this e in
  let r := insert_members tuple m in
  insert tuple e =
  (tt, mkEnv r.2 (memtable_flush_total e) (memtable_flush_duration_us e)
         (timer_ns e)
         (calls e ++
          consume_calls tuple (_tuple_buf m) 0 (_slot_descs m) ++
          CallInsert (_tuple_buf m) (_keys_type m) r.1 ::
          (if r.1 then []
           else [CallAllocate (_schema_size m) (_tuple_buf r.2)]))).
Proof.
  intros m r. subst r m.
  unfold insert, mbind, M_bind, member. cbn [fst snd].
  rewrite consume_slots_run. cbv zeta.
  rewrite skip_list_Insert_run. cbv zeta. unfold insert_members.
  set (d := decoded_pools _ _ _ _ _ _ _).
  unfold decoded. env_simpl.
  destruct (Table_Insert _ _ _ d.1) as [[ow table'] pool'].
  cbn [fst snd]. destruct ow; cbn [negb fst snd].
  - unfold mret, M_ret. env_simpl. by rewrite <-app_assoc.
  - rewrite mem_pool_allocate_run. cbv zeta.
    unfold mret, M_ret, assign. env_simpl.
    destruct (allocate _ pool') as [buf pool'']. cbn [fst snd].
    rewrite <-!app_assoc. done.
Qed.

(** X7: [insert] decodes every column once, in order: the two pools it
    hands on are those that [consume] leaves when called once per slot
    descriptor, on columns 0, 1, ... of the scratch buffer, with the value
    and the null flag the tuple gives at that slot's offsets.  The index's
    [Insert] is then called once, on the scratch buffer, with the key type
    of the memtable and on the pool as decoding left it; the memtable
    keeps the index it returns.  When the flag came back true the pool is
    the one [Insert] returned and the scratch buffer stays; when false,
    [allocate] is called once on that pool with the row footprint, and
    the memtable keeps the pool and the buffer it returns.  The calls
    recorded are these, and no other; with no slot descriptor [insert]
    goes straight to [Insert]. *)
Theorem insert_decodes_every_slot_once (e : Env) (tuple : Tuple) :
  let m := this e in
  let buf := _tuple_buf m in
  let d := decoded_pools (_schema m) tuple buf 0 (_slot_descs m)
             (_mem_pool m) (_agg_object_pool m) in
  let r := Table_Insert buf (_keys_type m) (_skip_list m) d.1 in
  let a := allocate (_schema_size m) r.2 in
  let e' := (insert tuple e).2 in
  _agg_object_pool (this e') = d.2 ∧
  _skip_list (this e') = r.1.2 ∧
  _mem_pool (this e') = (if r.1.1 then r.2 else a.2) ∧
  _tuple_buf (this e') = (if r.1.1 then buf else a.1) ∧
  new_calls e e' =
    consume_calls tuple buf 0 (_slot_descs m) ++
    CallInsert buf (_keys_type m) r.1.1 ::
    (if r.1.1 then [] else [CallAllocate (_schema_size m) a.1]) ∧
  length (new_calls e e') =
    (length (_slot_descs m) + (if r.1.1 then 1 else 2))%nat.
Proof.
  intros m buf d r a e'. subst e'.
  rewrite insert_run. cbv zeta. unfold insert_members.
  fold m. fold buf. fold d. fold r. fold a. cbn [snd].
  destruct r.1.1; cbn [fst snd this _agg_object_pool _skip_list _mem_pool
                         _tuple_buf].
  - erewrite (new_calls_app e); [|reflexivity]. repeat (split; [done|]).
    rewrite length_app. unfold consume_calls. rewrite length_imap. cbn. lia.
  - erewrite (new_calls_app e); [|reflexivity]. repeat (split; [done|]).
    rewrite length_app. unfold consume_calls. rewrite length_imap. cbn. lia.
Qed.

(** X8: [insert] never calls the writer and never finalizes a record, and
    it leaves the writer, the two counters and the configuration of the
    memtable as they were. *)
Theorem insert_leaves_writer_alone (e : Env) (tuple : Tuple) :
  let e' := (insert tuple e).2 in
  Forall (λ c, is_drain_call c = false) (new_calls e e') ∧
  _rowset_writer (this e') = _rowset_writer (this e) ∧
  same_metrics e e' ∧
  same_configuration (this e) (this e').
Proof.
  intros e'.
  destruct (insert_step tuple e) as (ow & pool & objs & table & Henv & _).
  cbv zeta in Henv. fold e' in Henv.
  split; [|by rewrite Henv].
  erewrite new_calls_app; [|by rewrite Henv at 1].
  apply Forall_app. split; [apply consume_calls_not_drain|].
  destruct ow; by repeat constructor.
Qed.

(** ** Sequences of inserts *)

Lemma insert_calls_consume tuple row i slots :
  insert_calls (consume_calls tuple row i slots) = [] ∧
  allocate_calls (consume_calls tuple row i slots) = [].
Proof.
  revert i. induction slots as [|x sl IHs]; intros i; [done|].
  unfold consume_calls in *. cbn [imap].
  change (insert_calls (?c :: ?l)) with (insert_calls [c] ++ insert_calls l).
  change (allocate_calls (?c :: ?l))
    with (allocate_calls [c] ++ allocate_calls l).
  cbn [app]. specialize (IHs (S i)).
  erewrite (imap_ext _ (λ j slot, CallConsume (S i + j) row
              (tuple_is_null tuple (null_indicator_offset slot)))); [exact IHs|].
  intros j y _. cbn. f_equal. lia.
Qed.

Lemma insert_members_configuration tuple m :
  same_configuration m (insert_members tuple m).2 ∧
  _rowset_writer (insert_members tuple m).2 = _rowset_writer m.
Proof. unfold insert_members. cbv zeta. by destruct (Table_Insert _ _ _ _).1.1. Qed.

(** A sequence of inserts, in full. *)
Lemma inserts_run tuples e :
  let r := inserts_members tuples (this e) in
  ∃ cs,
    (inserts tuples e).2 =
      mkEnv r.2 (memtable_flush_total e) (memtable_flush_duration_us e)
        (timer_ns e) (calls e ++ cs) ∧
    insert_calls cs = (λ s, (s.1.1, _keys_type (this e), s.1.2)) <$> r.1 ∧
    allocate_calls cs =
      omap (λ s, if s.1.2 : bool then None
                 else Some (_schema_size (this e), s.2)) r.1.
Proof.
  revert e. induction tuples as [|tuple rest IH]; intros e.
  - exists []. cbn. destruct e. cbn. by rewrite app_nil_r.
  - cbn [inserts inserts_members]. unfold mbind, M_bind.
    rewrite insert_run. cbv zeta.
    set (r := insert_members tuple (this e)).
    set (cs1 := consume_calls _ _ _ _ ++ _).
    set (e1 := mkEnv r.2 _ _ _ _).
    destruct (IH e1) as (cs & Henv & Hins & Hall). cbv zeta in Henv.
    change (this e1) with r.2 in *.
    destruct (insert_members_configuration tuple (this e))
      as ((_ & _ & _ & Hkt & Hsz) & _). fold r in Hkt, Hsz.
    exists (cs1 ++ cs). cbn [fst snd]. split; [|split].
    + rewrite Henv. unfold e1. cbn. by rewrite <-app_assoc.
    + rewrite insert_calls_app, Hins, Hkt. unfold cs1.
      rewrite insert_calls_app, (proj1 (insert_calls_consume _ _ _ _)).
      cbn [fmap list_fmap app fst snd]. by destruct r.1.
    + rewrite allocate_calls_app, Hall, Hsz. unfold cs1.
      rewrite allocate_calls_app, (proj2 (insert_calls_consume _ _ _ _)).
      cbn [omap list_omap app fst snd]. by destruct r.1.
Qed.

(** What a sequence of inserts adds up to. *)
Lemma inserts_summary tuples e :
  let e' := (inserts tuples e).2 in
  ∃ cs,
    calls e' = calls e ++ cs ∧
    length (insert_calls cs) = length tuples ∧
    length (allocate_calls cs) =
      length (filter (λ x, x.2 = false) (insert_calls cs)) ∧
    Forall (λ x, x.1 = _schema_size (this e)) (allocate_calls cs) ∧
    _tuple_buf (this e') =
      default (_tuple_buf (this e)) (last (allocate_calls cs).*2) ∧
    Forall (λ c, is_drain_call c = false) cs ∧
    _rowset_writer (this e') = _rowset_writer (this e) ∧
    same_metrics e e' ∧
    same_configuration (this e) (this e').
Proof.
  revert e. induction tuples as [|tuple rest IH]; intros e e'; subst e'.
  - exists []. cbn. rewrite app_nil_r. by repeat split.
  - cbn [inserts]. unfold mbind, M_bind.
    destruct (insert_step tuple e) as (ow & pool & objs & table & Henv & Hbuf).
    cbv zeta in Henv, Hbuf.
    destruct (insert tuple e) as [[] e1]. cbn [snd] in *.
    destruct (IH e1) as (cs & Hcalls & Hins & Hall & Hsize & Htb & Hnd & Hw & Hm & Hc).
    set (cs1 := consume_calls tuple (_tuple_buf (this e)) 0 (_slot_descs (this e))
                ++ CallInsert (_tuple_buf (this e)) (_keys_type (this e)) ow ::
                (if ow then []
                 else [CallAllocate (_schema_size (this e)) (_tuple_buf (this e1))]))
      in *.
    assert (Hcalls1 : calls e1 = calls e ++ cs1) by (by rewrite Henv at 1).
    assert (Hsz : _schema_size (this e1) = _schema_size (this e))
      by (by rewrite Henv).
    assert (Hcons : ∀ t r i sl,
              insert_calls (consume_calls t r i sl) = [] ∧
              allocate_calls (consume_calls t r i sl) = []).
    { clear. intros t r i sl. revert i.
      induction sl as [|x sl IHs]; intros i; [done|].
      unfold consume_calls in *. cbn [imap].
      change (insert_calls (?c :: ?l)) with (insert_calls [c] ++ insert_calls l).
      change (allocate_calls (?c :: ?l))
        with (allocate_calls [c] ++ allocate_calls l).
      cbn [app]. specialize (IHs (S i)).
      erewrite (imap_ext _ (λ j slot, CallConsume (S i + j) r
                  (tuple_is_null t (null_indicator_offset slot)))); [exact IHs|].
      intros j y _. cbn. f_equal. lia. }
    assert (Hins1 : insert_calls cs1 =
              [(_tuple_buf (this e), _keys_type (this e), ow)]).
    { unfold cs1. rewrite insert_calls_app, (proj1 (Hcons _ _ _ _)).
      by destruct ow. }
    assert (Hall1 : allocate_calls cs1 =
              if ow then []
              else [(_schema_size (this e), _tuple_buf (this e1))]).
    { unfold cs1. rewrite allocate_calls_app, (proj2 (Hcons _ _ _ _)).
      by destruct ow. }
    exists (cs1 ++ cs).
    rewrite insert_calls_app, allocate_calls_app, Hins1, Hall1.
    split; [by rewrite Hcalls, Hcalls1, <-app_assoc|].
    split; [cbn; by rewrite Hins|].
    split.
    { cbn [app filter list_filter]. rewrite length_app, Hall.
      destruct ow; cbn; [|done]. by case_decide. }
    split.
    { apply Forall_app. rewrite Hsz in Hsize. split; [|done].
      destruct ow; by repeat constructor. }
    split.
    { rewrite Htb, fmap_app, last_app.
      destruct (last (allocate_calls cs).*2) as [b|]; [done|].
      destruct ow; cbn; [by apply Hbuf|done]. }
    split.
    { apply Forall_app. split; [|done]. unfold cs1.
      apply Forall_app. split; [apply consume_calls_not_drain|].
      destruct ow; by repeat constructor. }
    split; [by rewrite Hw, Henv|].
    destruct Hm as (? & ? & ?), Hc as (? & ? & ? & ? & ?).
    rewrite Henv in *. cbn in *. by repeat split.
Qed.

(** X9: over any sequence of inserts, the memtable ends with the members
    that the collaborators' own operations give, tuple after tuple:
    decoding into the scratch buffer, the index's [Insert] on it and, for
    every tuple whose flag came back false, an [allocate] of the row
    footprint on the pool [Insert] returned, whose buffer is the next
    scratch buffer.  [Insert] is called once per tuple, on the scratch
    buffer of its turn and with the key type of the memtable, and
    [allocate] once for every one of those calls that came back with the
    flag false, each time with the row footprint and returning the next
    scratch buffer; the scratch buffer at the end is the last buffer
    allocated, or the one at the start when nothing was allocated.  The
    writer is never called, and the writer, the counters and the
    configuration are as at the start. *)
Theorem inserts_allocate_per_fresh_key (e : Env) (tuples : list Tuple) :
  let e' := (inserts tuples e).2 in
  let cs := new_calls e e' in
  let r := inserts_members tuples (this e) in
  this e' = r.2 ∧
  insert_calls cs = (λ s, (s.1.1, _keys_type (this e), s.1.2)) <$> r.1 ∧
  allocate_calls cs =
    omap (λ s, if s.1.2 : bool then None
               else Some (_schema_size (this e), s.2)) r.1 ∧
  length (insert_calls cs) = length tuples ∧
  length (allocate_calls cs) =
    length (filter (λ x, x.2 = false) (insert_calls cs)) ∧
  Forall (λ x, x.1 = _schema_size (this e)) (allocate_calls cs) ∧
  _tuple_buf (this e') =
    default (_tuple_buf (this e)) (last (allocate_calls cs).*2) ∧
  Forall (λ c, is_drain_call c = false) cs ∧
  _rowset_writer (this e') = _rowset_writer (this e) ∧
  same_metrics e e' ∧
  same_configuration (this e) (this e').
Proof.
  intros e' cs r. subst cs e' r.
  destruct (inserts_summary tuples e) as (cs & Hcalls & H).
  destruct (inserts_run tuples e) as (cs' & Henv & Hins & Hall).
  cbv zeta in Henv.
  assert (cs' = cs) as ->.
  { rewrite Henv in Hcalls. cbn [calls] in Hcalls.
    by apply app_inv_head in Hcalls. }
  rewrite (new_calls_app _ _ _ Hcalls).
  split; [by rewrite Henv|]. split; [done|]. by split.
Qed.

End FurtherFacts.

(** * Part V: further properties with the reference collaborators *)

Lemma get_cell_set_cell i c r k :
  get_cell (set_cell i c r) k = if decide (k = i) then c else get_cell r k.
Proof.
  unfold get_cell, set_cell, Row, Cell in *.
  destruct (decide (i < length r)%nat) as [Hlt|Hge].
  - destruct (decide (k = i)) as [->|Hne].
    + by rewrite list_lookup_insert_eq.
    + by rewrite list_lookup_insert_ne.
  - destruct (decide (k = i)) as [->|Hne].
    + rewrite lookup_app_r by lia.
      rewrite lookup_app_r by (rewrite length_replicate; lia).
      rewrite length_replicate.
      by replace (i - length r - (i - length r))%nat with 0%nat by lia.
    + destruct (decide (k < length r)%nat).
      * by rewrite lookup_app_l.
      * rewrite (lookup_ge_None_2 r k) by lia.
        rewrite lookup_app_r by lia.
        destruct (decide (k < i)%nat).
        -- rewrite lookup_app_l by (rewrite length_replicate; lia).
           by rewrite lookup_replicate_2 by lia.
        -- rewrite lookup_app_r by (rewrite length_replicate; lia).
           rewrite length_replicate.
           rewrite lookup_ge_None_2; [done|]. simpl. lia.
Qed.

Section FurtherReferenceFacts.
Context (finalize_cells : RefSchema → Row → Row) (Writer : Type)
  (add_row : Row → Writer → OLAPStatus * Writer)
  (seal : Writer → OLAPStatus * Writer).

Abbreviation Ref := (RefCollaborators finalize_cells Writer add_row seal).
Abbreviation REnv := (@Env Ref).

(** ** What [insert] writes *)

(** The pool after the decoding loop from column [i] on: other buffers,
    the tracker and the allocation mark are as before, the columns below
    [i] of the scratch record too, and each column from [i] on holds the
    cell of its slot. *)
Lemma ref_consume_slots_pool (tuple : RefTuple) buf i slots (e : REnv) :
  let p := _mem_pool (this e) in
  let p' := _mem_pool (this (consume_slots (C:=Ref) tuple buf i slots e).2) in
  pool_frame buf p p' ∧
  (∀ k, (k < i)%nat →
        get_cell (read_row p' buf) k = get_cell (read_row p buf) k) ∧
  (∀ j slot, slots !! j = Some slot →
             get_cell (read_row p' buf) (i + j) = cell_of tuple slot).
Proof.
  revert i e. induction slots as [|slot rest IH]; intros i e p p'; subst p p'.
  - cbn. repeat split; try done.
  - cbn [consume_slots]. unfold mbind, M_bind.
    rewrite schema_column_consume_run. cbv zeta.
    set (e1 := with_call _ _). cbn [fst snd].
    change ((let '(_, e') := (tt, e1) in
             consume_slots (C:=Ref) tuple buf (S i) rest e').2)
      with (consume_slots (C:=Ref) tuple buf (S i) rest e1).2.
    destruct (IH (S i) e1) as ((Htr & Hnext & Hother) & Hbelow & Hslots).
    set (p' := _mem_pool (this (consume_slots (C:=Ref) tuple buf (S i) rest e1).2))
      in *.
    set (c := if ref_is_null tuple (null_indicator_offset slot) then None
              else Some (ref_get_slot tuple (tuple_offset slot))).
    assert (Hp1 : _mem_pool (this e1) =
              write_row buf (set_cell i c (read_row (_mem_pool (this e)) buf))
                (_mem_pool (this e))) by done.
    rewrite Hp1 in *. clear Hp1.
    split; [|split].
    + split; [by rewrite Htr|]. split; [by rewrite Hnext|].
      intros a Ha. by rewrite Hother, read_write_row_ne.
    + intros k Hk. rewrite Hbelow by lia.
      rewrite read_write_row, get_cell_set_cell. by case_decide; [lia|].
    + intros [|j] sl Hsl.
      * cbn in Hsl. inversion Hsl; subst sl. rewrite Nat.add_0_r.
        rewrite Hbelow by lia.
        rewrite read_write_row, get_cell_set_cell. by case_decide.
      * cbn in Hsl. replace (i + S j)%nat with (S i + j)%nat by lia.
        by apply Hslots.
Qed.

(** The pool [insert] leaves holds the records the decoding loop left. *)
Lemma ref_insert_pool (tuple : RefTuple) (e : REnv) :
  let buf := _tuple_buf (this e) in
  let p1 := _mem_pool (this (consume_slots (C:=Ref) tuple buf 0
                               (_slot_descs (this e)) e).2) in
  ∀ a, read_row (_mem_pool (this (insert (C:=Ref) tuple e).2)) a = read_row p1 a.
Proof.
  intros buf p1 a. subst p1 buf.
  destruct (insert_spec_any (C:=Ref) tuple e)
    as (pool & objs & cs & _ & Hdec & Hrun).
  cbv zeta in Hrun, Hdec. rewrite Hrun, Hdec. clear Hrun Hdec.
  cbn [Table_Insert RefCollaborators]. unfold ref_table_insert. cbn [fst snd].
  by destruct (insert_or_locate _ _ _ _) as [[] rows'].
Qed.

Lemma ref_insert_records (tuple : RefTuple) (e : REnv) :
  let buf := _tuple_buf (this e) in
  let p := _mem_pool (this e) in
  let p' := _mem_pool (this (insert (C:=Ref) tuple e).2) in
  (∀ a, a ≠ buf → read_row p' a = read_row p a) ∧
  row_view (length (_slot_descs (this e))) (read_row p' buf) =
    decode_tuple (_slot_descs (this e)) tuple.
Proof.
  intros buf p p'. subst p'.
  destruct (ref_consume_slots_pool tuple buf 0 (_slot_descs (this e)) e)
    as ((_ & _ & Hother) & _ & Hslots).
  split.
  - intros a Ha. rewrite ref_insert_pool. by apply Hother.
  - rewrite ref_insert_pool. unfold row_view, decode_tuple.
    apply list_eq. intros j. rewrite !list_lookup_fmap.
    destruct (_slot_descs (this e) !! j) as [slot|] eqn:Hj.
    + rewrite lookup_seq_lt by (by eapply lookup_lt_Some).
      cbn. f_equal. by apply (Hslots j slot).
    + by rewrite lookup_seq_ge by (by apply lookup_ge_None).
Qed.

(** ** What [flush] hands to the writer *)

(** X11: on the reference collaborators, with distinct entries, what
    [flush] does to the writer is to hand it, one by one and up to the
    first refusal, the finalized cells of the records as they were when
    [flush] began, in iteration order, and then, if none was refused, to
    ask it to flush.  The status of [flush] is that of the refusal, or of
    the writer's flush; after a flush without refusal every entry holds
    its finalized record. *)
Theorem flush_hands_finalized_records (e : REnv) :
  NoDup (table_entries (_skip_list (this e))) →
  let p := _mem_pool (this e) in
  let s := _schema (this e) in
  let rows := table_entries (_skip_list (this e)) in
  let r := hand_over add_row ((λ a, finalize_cells s (read_row p a)) <$> rows)
             (_rowset_writer (this e)) in
  let e' := (flush (C:=Ref) e).2 in
  if not_ok r.1 then
    (flush (C:=Ref) e).1 = r.1 ∧ _rowset_writer (this e') = r.2
  else
    (flush (C:=Ref) e).1 = (seal r.2).1 ∧
    _rowset_writer (this e') = (seal r.2).2 ∧
    ∀ a, a ∈ rows →
         read_row (_mem_pool (this e')) a = finalize_cells s (read_row p a).
Proof.
  intros Hnodup p s rows r e'. subst e'.
  destruct (ref_flush_rows finalize_cells Writer add_row seal rows e Hnodup)
    as (Hst & Hw & _ & _ & Hfin).
  fold p s r in Hst, Hw, Hfin.
  unfold flush, mbind, M_bind, member, SeekToFirst. cbn [fst snd].
  change (Table_entries (_skip_list (this e))) with rows.
  destruct (flush_rows (C:=Ref) rows e) as [st e1]. cbn [fst snd] in *.
  subst st. destruct (not_ok r.1) eqn:Hr; [done|].
  apply not_ok_false in Hr. specialize (Hfin Hr).
  rewrite rowset_writer_flush_run. cbv zeta.
  change (writer_flush (_rowset_writer (this e1)))
    with (seal (_rowset_writer (this e1))).
  rewrite Hw. destruct (seal r.2) as [st' w'']. cbn [fst snd].
  destruct (not_ok st') eqn:Hst'.
  - unfold mret, M_ret. cbn [fst snd]. by repeat split.
  - apply not_ok_false in Hst'. subst st'.
    unfold mret, M_ret, metrics_increment. cbn [fst snd]. by repeat split.
Qed.

(** ** A duplicate-key table keeps every record *)

Lemma ref_insert_duplicate_key (e : REnv) (tuple : RefTuple) :
  well_formed finalize_cells Writer add_row seal e →
  _keys_type (this e) = DUP_KEYS →
  table_entries (_skip_list (this (insert (C:=Ref) tuple e).2))
  ≡ₚ _tuple_buf (this e) :: table_entries (_skip_list (this e)).
Proof.
  intros Hwf Hdup.
  destruct (ref_insert_run finalize_cells Writer add_row seal e tuple Hwf)
    as (pool & objs & cs & _ & _ & Hrun).
  cbv zeta in Hrun. rewrite Hrun. clear Hrun. rewrite Hdup.
  change (bool_decide (DUP_KEYS = DUP_KEYS)) with true.
  pose proof (insert_or_locate_entries (compare_at (_schema (this e)) pool)
                true (_tuple_buf (this e)) (table_entries (_skip_list (this e))))
    as Hentries.
  pose proof (insert_or_locate_dup (compare_at (_schema (this e)) pool)
                (_tuple_buf (this e)) (table_entries (_skip_list (this e))))
    as Hflag.
  cbv zeta in Hentries.
  destruct (insert_or_locate _ true _ _) as [ow rows'].
  cbn [fst snd] in *. by subst ow.
Qed.

Lemma ref_inserts_duplicate_key (tuples : list RefTuple) (e : REnv) :
  Open e →
  (0 < ref_schema_size (_schema (this e)))%N →
  _keys_type (this e) = DUP_KEYS →
  let e' := (inserts (C:=Ref) tuples e).2 in
  let n := length (_slot_descs (this e)) in
  ((λ a, row_view n (read_row (_mem_pool (this e')) a))
     <$> table_entries (_skip_list (this e')))
  ≡ₚ (decode_tuple (_slot_descs (this e)) <$> tuples) ++
     ((λ a, row_view n (read_row (_mem_pool (this e)) a))
        <$> table_entries (_skip_list (this e))) ∧
  Open e' ∧ _schema (this e') = _schema (this e).
Proof.
  revert e. induction tuples as [|tuple rest IH]; intros e Hopen Hpos Hdup e' n;
    subst e' n.
  - by cbn.
  - cbn [inserts]. unfold mbind, M_bind.
    pose proof (Open_insert e tuple Hopen) as Hopen1.
    pose proof (Open_well_formed finalize_cells Writer add_row seal e Hopen Hpos)
      as Hwf.
    pose proof (ref_insert_duplicate_key e tuple Hwf Hdup) as Hperm.
    destruct (ref_insert_records tuple e) as [Hother Hbuf].
    destruct (insert_step (C:=Ref) tuple e) as (ow & ? & ? & ? & Henv & _).
    cbv zeta in Henv.
    destruct (insert (C:=Ref) tuple e) as [[] e1]. cbn [fst snd] in *.
    assert (Hs1 : _schema (this e1) = _schema (this e)) by (by rewrite Henv).
    assert (Hk1 : _keys_type (this e1) = _keys_type (this e))
      by (by rewrite Henv).
    assert (Hd1 : _slot_descs (this e1) = _slot_descs (this e))
      by (by rewrite Henv).
    assert (Hpos1 : (0 < ref_schema_size (_schema (this e1)))%N)
      by (by rewrite Hs1).
    assert (Hdup1 : _keys_type (this e1) = DUP_KEYS) by congruence.
    destruct (IH e1 Hopen1 Hpos1 Hdup1) as (Hview & Hopen' & Hs').
    cbv zeta in Hview. rewrite Hd1 in Hview.
    split; [|split; [done|congruence]].
    rewrite Hview, Hperm, fmap_cons, Hbuf. cbn [fmap list_fmap].
    assert (Hext : (λ a, row_view (length (_slot_descs (this e)))
                           (read_row (_mem_pool (this e1)) a))
                     <$> table_entries (_skip_list (this e)) =
                   (λ a, row_view (length (_slot_descs (this e)))
                           (read_row (_mem_pool (this e)) a))
                     <$> table_entries (_skip_list (this e))).
    { apply list_fmap_ext. intros i a Ha. f_equal. apply Hother.
      intros ->. destruct Hwf as (_ & _ & _ & _ & _ & Hfresh).
      apply Hfresh. by eapply list_elem_of_lookup_2. }
    rewrite Hext. symmetry. apply Permutation_middle.
Qed.

(** X12: on the reference collaborators, a duplicate-key memtable loses
    no record and overwrites none: after any sequence of inserts into a
    new memtable, the records of the index, in their slot columns, are the
    decoded tuples, every one of them, up to order (none is dropped,
    however many share a key), and they stand in ascending key order. *)
Theorem duplicate_key_table_keeps_every_record tablet_id (schema : RefSchema)
    slot_descs (writer : Writer) parent total us timer cs
    (tuples : list RefTuple) :
  (0 < ref_schema_size schema)%N →
  let e : REnv :=
    (inserts (C:=Ref) tuples
       (mkEnv (MemTable_new (C:=Ref) tablet_id schema slot_descs DUP_KEYS
                 writer parent) total us timer cs)).2 in
  let rows := table_entries (_skip_list (this e)) in
  ((λ a, row_view (length slot_descs) (read_row (_mem_pool (this e)) a)) <$> rows)
  ≡ₚ decode_tuple slot_descs <$> tuples ∧
  length rows = length tuples ∧
  StronglySorted (row_le schema (_mem_pool (this e))) rows.
Proof.
  intros Hpos e rows. subst rows e.
  set (e0 := mkEnv (MemTable_new (C:=Ref) tablet_id schema slot_descs DUP_KEYS
                      writer parent) total us timer cs : REnv).
  assert (Hopen0 : Open e0) by apply Open_new.
  destruct (ref_inserts_duplicate_key tuples e0 Hopen0 Hpos eq_refl)
    as (Hview & Hopen & Hs).
  cbv zeta in Hview.
  change (table_entries (_skip_list (this e0))) with (@nil addr) in Hview.
  change (_slot_descs (this e0)) with slot_descs in Hview.
  rewrite fmap_nil, app_nil_r in Hview.
  split; [done|]. split.
  - apply Permutation_length in Hview. by rewrite !length_fmap in Hview.
  - change (_schema (this e0)) with schema in Hs.
    assert (Hpos' : (0 < ref_schema_size
                       (_schema (this (inserts (C:=Ref) tuples e0).2)))%N)
      by (by rewrite Hs).
    destruct (Open_well_formed finalize_cells Writer add_row seal _ Hopen Hpos')
      as (_ & Hsorted & _).
    rewrite Hs in Hsorted.
    apply Sorted_StronglySorted; [apply _|done].
Qed.

End FurtherReferenceFacts.

(** ** What [insert] writes, over any index *)

Section IndexFacts.
Context (table_insert : addr → KeysType → RefTable → RefPool →
                        bool * RefTable * RefPool)
  (finalize_cells : RefSchema → Row → Row) (Writer : Type)
  (add_row : Row → Writer → OLAPStatus * Writer)
  (seal : Writer → OLAPStatus * Writer).

Abbreviation Idx :=
  (IndexCollaborators table_insert finalize_cells Writer add_row seal).



End IndexFacts.

(** * Part VI: the further properties at work on the example table *)

Lemma example_filled_is_open keys_type w : Open (example_filled keys_type w).
Proof. unfold example_filled, example_memtable. apply Open_inserts, Open_new. Qed.

Lemma example_filled_footprint keys_type w :
  (0 < ref_schema_size (_schema (this (example_filled keys_type w))))%N.
Proof. destruct keys_type; vm_compute; reflexivity. Qed.

(** X2 at work: the filled duplicate-key table and a writer that accepts. *)
Lemma flush_success_witness :
  let e := example_filled DUP_KEYS accepting_writer in
  let rows := Table_entries (_skip_list (this e)) in
  let d := drain (_schema (this e)) rows (_mem_pool (this e))
             (_rowset_writer (this e)) in
  let e' := (flush e).2 in
  d.1.1 = all_accepted rows ∧
  (writer_flush d.2).1 = OLAP_SUCCESS ∧
  this e' = set_rowset_writer (writer_flush d.2).2 (set_mem_pool d.1.2 (this e)) ∧
  new_calls e e' = success_calls rows ∧
  memtable_flush_total e' = memtable_flush_total e + 1 ∧
  memtable_flush_duration_us e' =
    memtable_flush_duration_us e + Z.quot (timer_ns e) 1000 ∧
  timer_ns e' = timer_ns e.
Proof.
  assert (Hok : (flush (example_filled DUP_KEYS accepting_writer)).1 = OLAP_SUCCESS)
    by (vm_compute; reflexivity).
  exact (flush_success (C:=Recording) _ Hok).
Defined.

(** The writer then holds the four records in key order and was sealed
    once. *)
Example example_flush_writer :
  _rowset_writer (this (flush (example_filled DUP_KEYS accepting_writer)).2) =
  mkWriter [[None; Some 1]; [Some 1; Some 20]; [Some 3; Some 10]; [Some 3; Some 5]]
    1 None (-1) 0.
Proof. vm_compute. reflexivity. Qed.

Example flush_success_counters :
  memtable_flush_total (flush (example_filled DUP_KEYS accepting_writer)).2 = 1 ∧
  memtable_flush_duration_us (flush (example_filled DUP_KEYS accepting_writer)).2 = 5.
Proof. split; vm_compute; reflexivity. Qed.

(** X3 at work: the writer refuses the second record. *)
Lemma flush_failure_not_counted_witness :
  let e := example_filled DUP_KEYS (refusing_writer 1) in
  same_metrics e (flush e).2 ∧
  new_calls e (flush e).2 ≠ success_calls (Table_entries (_skip_list (this e))).
Proof.
  assert (Hbad : (flush (example_filled DUP_KEYS (refusing_writer 1))).1
                 ≠ OLAP_SUCCESS) by (vm_compute; discriminate).
  exact (flush_failure_not_counted (C:=Recording) _ Hbad).
Defined.

(** X4 at work: the writer's flush fails after four accepted records. *)
Lemma writer_flush_after_all_accepted_witness :
  let e := example_filled DUP_KEYS unsealing_writer in
  let rows := Table_entries (_skip_list (this e)) in
  let d := drain (_schema (this e)) rows (_mem_pool (this e))
             (_rowset_writer (this e)) in
  let w := writer_flush d.2 in
  let e' := (flush e).2 in
  let cs := new_calls e e' in
  _mem_pool (this e') = d.1.2 ∧
  add_row_calls cs = d.1.1 ∧
  if not_ok (drain_status d.1.1) then
    (flush e).1 = drain_status d.1.1 ∧
    _rowset_writer (this e') = d.2 ∧
    writer_flush_calls cs = []
  else
    d.1.1 = all_accepted rows ∧
    (flush e).1 = w.1 ∧
    _rowset_writer (this e') = w.2 ∧
    cs = drain_calls (all_accepted rows) ++ [CallWriterFlush w.1].
Proof.
  exact (writer_flush_after_all_accepted (C:=Recording)
           (example_filled DUP_KEYS unsealing_writer)).
Defined.

(** With the writer that fails to flush, the four records were accepted
    and the flush was asked for once; with the writer that refuses the
    second record, two records were handed over, one was kept, and no
    flush was asked for. *)
Example example_unsealed_and_refused :
  (flush (example_filled DUP_KEYS unsealing_writer)).1 = -7 ∧
  _rowset_writer (this (flush (example_filled DUP_KEYS unsealing_writer)).2) =
    mkWriter [[None; Some 1]; [Some 1; Some 20]; [Some 3; Some 10]; [Some 3; Some 5]]
      1 None (-1) (-7) ∧
  (flush (example_filled DUP_KEYS (refusing_writer 1))).1 = -5 ∧
  _rowset_writer (this (flush (example_filled DUP_KEYS (refusing_writer 1))).2) =
    mkWriter [[None; Some 1]] 0 (Some 1%nat) (-5) 0.
Proof. repeat match goal with |- _ ∧ _ => split end; vm_compute; reflexivity. Qed.

(** X5 at work: a new memtable and a writer that fails to flush. *)
Lemma flush_no_entries_witness :
  let e := example_memtable UNIQUE_KEYS unsealing_writer (-1) in
  let r := writer_flush (_rowset_writer (this e)) in
  (flush e).1 = r.1 ∧
  new_calls e (flush e).2 = [CallWriterFlush r.1] ∧
  this (flush e).2 = set_rowset_writer r.2 (this e) ∧
  memtable_flush_total (flush e).2 =
    memtable_flush_total e + (if not_ok r.1 then 0 else 1).
Proof.
  assert (Hrows : Table_entries
                    (_skip_list (this (example_memtable UNIQUE_KEYS
                                         unsealing_writer (-1)))) = [])
    by (vm_compute; reflexivity).
  exact (flush_no_entries (C:=Recording) _ Hrows).
Defined.

Example flush_no_entries_fails :
  (flush (example_memtable UNIQUE_KEYS unsealing_writer (-1))).1 = -7 ∧
  memtable_flush_total
    (flush (example_memtable UNIQUE_KEYS unsealing_writer (-1))).2 = 0.
Proof. split; vm_compute; reflexivity. Qed.

(** X6 at work: [flush], then [close], on the filled table. *)
Lemma flush_twice_witness :
  let e := example_filled DUP_KEYS accepting_writer in
  let e1 := (flush e).2 in
  let e2 := (close e1).2 in
  let rows := Table_entries (_skip_list (this e)) in
  let d1 := drain (_schema (this e)) rows (_mem_pool (this e))
              (_rowset_writer (this e)) in
  let d2 := drain (_schema (this e)) rows d1.1.2 (writer_flush d1.2).2 in
  d1.1.1 = all_accepted rows ∧ d2.1.1 = all_accepted rows ∧
  this e2 =
    set_rowset_writer (writer_flush d2.2).2 (set_mem_pool d2.1.2 (this e)) ∧
  new_calls e1 e2 = new_calls e e1 ∧
  finalize_calls (new_calls e e2) = rows ++ rows ∧
  memtable_flush_total e2 = memtable_flush_total e + 2.
Proof.
  assert (Hok1 : (flush (example_filled DUP_KEYS accepting_writer)).1
                 = OLAP_SUCCESS) by (vm_compute; reflexivity).
  assert (Hok2 : (close (flush (example_filled DUP_KEYS accepting_writer)).2).1
                 = OLAP_SUCCESS) by (vm_compute; reflexivity).
  exact (flush_twice (C:=Recording) _ Hok1 Hok2).
Defined.

(** The writer then holds every record twice and was sealed twice. *)
Example flush_twice_written :
  _rowset_writer
    (this (close (flush (example_filled DUP_KEYS accepting_writer)).2).2) =
  mkWriter
    [[None; Some 1]; [Some 1; Some 20]; [Some 3; Some 10]; [Some 3; Some 5];
     [None; Some 1]; [Some 1; Some 20]; [Some 3; Some 10]; [Some 3; Some 5]]
    2 None (-1) 0.
Proof. vm_compute. reflexivity. Qed.


(** The resident record took the sum in [Insert]; the scratch buffer
    holds the second tuple and stays. *)
Example example_collision_on_merging_index :
  let e := (insert (C:=Merging) [Some 1; Some 10] merging_memtable).2 in
  let e' := (insert (C:=Merging) [Some 1; Some 20] e).2 in
  _tuple_buf (this e) = 19%N ∧ _tuple_buf (this e') = 19%N ∧
  read_row (_mem_pool (this e)) 1%N = [Some 1; Some 10] ∧
  read_row (_mem_pool (this e')) 1%N = [Some 1; Some 30] ∧
  read_row (_mem_pool (this e')) 19%N = [Some 1; Some 20].
Proof.
  cbv zeta.
  repeat match goal with |- _ ∧ _ => split end; vm_compute; reflexivity.
Qed.

(** X11 at work: the writer refuses the second record of the filled
    table. *)
Lemma flush_hands_finalized_records_witness :
  let e := example_filled DUP_KEYS (refusing_writer 1) in
  let p := _mem_pool (this e) in
  let s := _schema (this e) in
  let rows := table_entries (_skip_list (this e)) in
  let r := hand_over recording_add_row ((λ a, read_row p a) <$> rows)
             (_rowset_writer (this e)) in
  let e' := (flush (C:=Recording) e).2 in
  if not_ok r.1 then
    (flush (C:=Recording) e).1 = r.1 ∧ _rowset_writer (this e') = r.2
  else
    (flush (C:=Recording) e).1 = (recording_seal r.2).1 ∧
    _rowset_writer (this e') = (recording_seal r.2).2 ∧
    ∀ a, a ∈ rows → read_row (_mem_pool (this e')) a = read_row p a.
Proof.
  assert (Hnodup : NoDup (table_entries
                            (_skip_list (this (example_filled DUP_KEYS
                                                 (refusing_writer 1)))))).
  { apply (Open_well_formed (λ _ r, r) RecordingWriter recording_add_row
             recording_seal _ (example_filled_is_open _ _)
             (example_filled_footprint _ _)). }
  exact (flush_hands_finalized_records (λ _ r, r) RecordingWriter
           recording_add_row recording_seal _ Hnodup).
Defined.

(** X12 at work: the example tuples in a duplicate-key table. *)
Lemma duplicate_key_table_keeps_every_record_witness :
  let e := example_filled DUP_KEYS accepting_writer in
  let rows := table_entries (_skip_list (this e)) in
  ((λ a, row_view (length example_slots) (read_row (_mem_pool (this e)) a))
     <$> rows)
  ≡ₚ decode_tuple example_slots <$> example_tuples ∧
  length rows = length example_tuples ∧
  StronglySorted (row_le example_schema (_mem_pool (this e))) rows.
Proof.
  assert (Hpos : (0 < ref_schema_size example_schema)%N) by reflexivity.
  exact (duplicate_key_table_keeps_every_record (λ _ r, r) RecordingWriter
           recording_add_row recording_seal 7 example_schema example_slots
           accepting_writer (Tracker (-1) "tablet" 0 NoTracker) 0 0 5000 []
           example_tuples Hpos).
Defined.
